(** * Timed sleep and fixed-point arithmetic of the Pintos threads project

    A shallow embedding of

    - [src/threads/fixed_point.h]: the 17.14 fixed-point helpers, and
    - the alarm clock of [devices/timer.c] as documented in
      [ALARM_CLOCK_REFACTOR.md]: [timer_sleep], [timer_interrupt] and
      [check_sleeping_threads] over the sleeping list and the
      [next_wakeup_tick] cache,

    followed by the properties the design document states about them. *)

From Stdlib Require Import ZArith List Bool Lia Sorted Permutation.
Import ListNotations.
Open Scope Z_scope.

(** ** C integer arithmetic

    [int] is 32 bits and [int64_t] 64 bits, both two's complement.  Sums,
    differences and products wrap around; a conversion to a narrower type
    keeps the low bits.  Division is the truncating division of C and has
    the two undefined cases of the language, which on the x86 target both
    raise the divide-error exception: a zero divisor, and the most
    negative value divided by -1. *)
Module Machine.

Definition INT_MIN : Z := -2147483648.
Definition INT_MAX : Z := 2147483647.
Definition INT64_MIN : Z := -9223372036854775808.
Definition INT64_MAX : Z := 9223372036854775807.

(** Two's complement reduction to [bits] bits. *)
Definition wrap (bits : Z) (z : Z) : Z :=
  (z + 2 ^ (bits - 1)) mod 2 ^ bits - 2 ^ (bits - 1).

Definition wrap32 : Z -> Z := wrap 32.
Definition wrap64 : Z -> Z := wrap 64.

Definition in_int32 (z : Z) : Prop := INT_MIN <= z <= INT_MAX.
Definition in_int64 (z : Z) : Prop := INT64_MIN <= z <= INT64_MAX.

(** [a / b] on a signed type whose least value is [lo]; [None] is the
    undefined case. *)
Definition sdiv (lo : Z) (a b : Z) : option Z :=
  if b =? 0 then None
  else if (a =? lo) && (b =? -1) then None
  else Some (Z.quot a b).

Definition sdiv32 : Z -> Z -> option Z := sdiv INT_MIN.
Definition sdiv64 : Z -> Z -> option Z := sdiv INT64_MIN.

End Machine.

(** ** [src/threads/fixed_point.h] *)
Module FixedPoint.
Import Machine.

(** [#define FP_F (1 << 14)] *)
Definition FP_F : Z := Z.shiftl 1 14.

Definition fp_int_to_fp (n : Z) : Z := wrap32 (n * FP_F).

(** The divisor of the two conversions back to [int] is the constant
    [FP_F], for which the division is always defined ([sdiv32_FP_F]
    below); they are total. *)
Definition fp_to_int_zero (x : Z) : Z := Z.quot x FP_F.

Definition fp_to_int_nearest (x : Z) : Z :=
  if x >=? 0
  then Z.quot (wrap32 (x + Z.quot FP_F 2)) FP_F
  else Z.quot (wrap32 (x - Z.quot FP_F 2)) FP_F.

Definition fp_add (x y : Z) : Z := wrap32 (x + y).
Definition fp_sub (x y : Z) : Z := wrap32 (x - y).
Definition fp_add_int (x n : Z) : Z := wrap32 (x + wrap32 (n * FP_F)).
Definition fp_sub_int (x n : Z) : Z := wrap32 (x - wrap32 (n * FP_F)).

(** [(int) (((int64_t) x) * y / FP_F)]: the product and the quotient are
    64-bit, the cast keeps the low 32 bits. *)
Definition fp_mul (x y : Z) : Z := wrap32 (Z.quot (wrap64 (x * y)) FP_F).

(** [(int) (((int64_t) x) * FP_F / y)] *)
Definition fp_div (x y : Z) : option Z :=
  option_map wrap32 (sdiv64 (wrap64 (x * FP_F)) y).

Definition fp_mul_int (x n : Z) : Z := wrap32 (x * n).

(** [x / n] on [int]. *)
Definition fp_div_int (x n : Z) : option Z := sdiv32 x n.

End FixedPoint.

(** ** The alarm clock of [devices/timer.c]

    [timer_interrupt] and the cache updates of [timer_sleep] and
    [check_sleeping_threads] are the code quoted in
    [ALARM_CLOCK_REFACTOR.md]; what that document only describes is
    marked as modelled from the specification. *)
Module Timer.
Import Machine.

Definition tid : Type := nat.

(** [enum thread_status] of [threads/thread.h]. *)
Inductive thread_status : Type :=
| THREAD_RUNNING
| THREAD_READY
| THREAD_BLOCKED
| THREAD_DYING.

(** The fields of [struct thread] the alarm clock reads and writes. *)
Record thread : Type := mkThread {
  status : thread_status;
  wakeup_tick : Z
}.

(** The [struct thread] objects, addressed by thread identifier.  The
    sleeping list links the objects themselves, so it is a list of
    identifiers into this table: a write to a thread's [wakeup_tick] is
    seen by every list position that refers to the thread. *)
Definition thread_table : Type := tid -> thread.

Definition update (tbl : thread_table) (t : tid) (th : thread) : thread_table :=
  fun u => if Nat.eqb u t then th else tbl u.

Definition set_wakeup_tick (tbl : thread_table) (t : tid) (w : Z) : thread_table :=
  update tbl t (mkThread (status (tbl t)) w).

(** Modelled from the spec: [thread_block] of [threads/thread.c] is
    missing; it is the scheduler's "mark_blocked" and "yield_to_scheduler"
    (section 6), and the refactoring notes say that it "sets status to
    BLOCKED and calls schedule()". *)
Definition thread_block (tbl : thread_table) (t : tid) : thread_table :=
  update tbl t (mkThread THREAD_BLOCKED (wakeup_tick (tbl t))).

(** Modelled from the spec: [thread_unblock] of [threads/thread.c] is
    missing; it is the scheduler's "mark_ready" (section 6), and the
    refactoring notes say that it "moves to ready_list, sets status to
    READY".  The ready list belongs to the scheduler and is not modelled. *)
Definition thread_unblock (tbl : thread_table) (t : tid) : thread_table :=
  update tbl t (mkThread THREAD_READY (wakeup_tick (tbl t))).

(** What an operation does to the scheduler and how often it looks at a
    list entry, in program order. *)
Inductive action : Type :=
| Blocked (t : tid) (start n w : Z)
    (** [t] called [timer_sleep (n)] at tick [start] and parked itself
        with [wakeup_tick = w] *)
| Scan (now : Z)
    (** [check_sleeping_threads] was entered at tick [now] *)
| Examined (t : tid)
    (** the scan compared the [wakeup_tick] of entry [t] with [ticks] *)
| Readied (t : tid) (w now : Z).
    (** the scan unblocked [t], whose [wakeup_tick] was [w], at tick [now] *)

Definition trace : Type := list action.

(** The globals of [timer.c] and the thread objects. *)
Record kernel : Type := mkKernel {
  ticks : Z;
  next_wakeup_tick : Z;
  sleeping_list : list tid;
  threads : thread_table
}.

(** Modelled from the spec: the comparison function [wakeup_time_less]
    passed to [list_insert_ordered] is not quoted; the registry is
    "ordered ascending by wake_tick", so it compares the two threads'
    [wakeup_tick] with [<]. *)
Definition wakeup_time_less (tbl : thread_table) (a b : tid) : bool :=
  wakeup_tick (tbl a) <? wakeup_tick (tbl b).

(** Modelled from the spec: [list_insert_ordered] of [lib/kernel/list.c]
    is missing; it inserts "at its sorted position", and "insertion order
    among equal keys" is kept: the element goes in front of the first
    entry it is less than. *)
Fixpoint list_insert_ordered (less : tid -> tid -> bool) (elem : tid)
    (l : list tid) : list tid :=
  match l with
  | [] => [elem]
  | e :: rest =>
      if less elem e then elem :: l
      else e :: list_insert_ordered less elem rest
  end.

(** Modelled from the spec: the start of [timer_sleep] is not quoted.  A
    zero or negative duration returns immediately, and otherwise
    [wake_tick = current_global_clock + ticks_to_wait] (section 4.1), an
    [int64_t] sum.  The insertion, the cache update and [thread_block ()]
    are the quoted code, in the quoted order; interrupts are off from the
    insertion to the block, so the body is one step.  [cur] is the calling
    thread. *)
Definition timer_sleep (cur : tid) (n : Z) (k : kernel) : kernel * trace :=
  if n <=? 0 then (k, [])
  else
    let start := ticks k in
    let wakeup := wrap64 (start + n) in
    let tbl1 := set_wakeup_tick (threads k) cur wakeup in
    let sl := list_insert_ordered (wakeup_time_less tbl1) cur (sleeping_list k) in
    let nw := if wakeup <? next_wakeup_tick k then wakeup
              else next_wakeup_tick k in
    (mkKernel (ticks k) nw sl (thread_block tbl1 cur),
     [Blocked cur start n wakeup]).

(** Modelled from the spec: the loop of [check_sleeping_threads] is only
    described (section 4.3): walk from the front; an entry whose
    [wake_tick <= Global Clock] is removed and made ready; stop at the
    first entry whose [wake_tick > Global Clock]. *)
Fixpoint wake_due (now : Z) (tbl : thread_table) (l : list tid)
    : thread_table * list tid * trace :=
  match l with
  | [] => (tbl, [], [])
  | t :: rest =>
      if wakeup_tick (tbl t) <=? now then
        let '(tbl', l', tr) := wake_due now (thread_unblock tbl t) rest in
        (tbl', l', Examined t :: Readied t (wakeup_tick (tbl t)) now :: tr)
      else (tbl, l, [Examined t])
  end.

(** [check_sleeping_threads ()]: the scan, then the quoted update of the
    cache from the front of the list. *)
Definition check_sleeping_threads (k : kernel) : kernel * trace :=
  let '(tbl, l, tr) := wake_due (ticks k) (threads k) (sleeping_list k) in
  let nw := match l with
            | [] => INT64_MAX
            | t :: _ => wakeup_tick (tbl t)
            end in
  (mkKernel (ticks k) nw l tbl, Scan (ticks k) :: tr).

(** Modelled from the spec: [thread_tick] of [threads/thread.c] is
    missing; it is the "per-tick scheduler bookkeeping" of section 4.2 and
    touches none of the state modelled here. *)
Definition thread_tick (k : kernel) : kernel := k.

(** [timer_interrupt], as quoted. *)
Definition timer_interrupt (k : kernel) : kernel * trace :=
  let k1 := mkKernel (wrap64 (ticks k + 1)) (next_wakeup_tick k)
                     (sleeping_list k) (threads k) in
  let k2 := thread_tick k1 in
  if ticks k2 >=? next_wakeup_tick k2 then check_sleeping_threads k2
  else (k2, []).

(** Modelled from the spec: [timer_init] is not quoted.  The list and the
    cache "are empty at boot" (section 3), the refactoring notes have
    [next_wakeup_tick] "initialized to INT64_MAX when no threads are
    sleeping", and the clock starts at 0. *)
Definition boot : kernel :=
  mkKernel 0 INT64_MAX [] (fun _ => mkThread THREAD_READY 0).

(** *** Runs

    A run is a sequence of sleep requests and timer ticks.  A request is
    made by a thread that executes, so not by one that is blocked or
    dying; which runnable thread the scheduler picks is not modelled. *)
Inductive event : Type :=
| Sleep (t : tid) (n : Z)
| Tick.

Definition runnable (st : thread_status) : bool :=
  match st with
  | THREAD_RUNNING | THREAD_READY => true
  | THREAD_BLOCKED | THREAD_DYING => false
  end.

Definition step (e : event) (k : kernel) : option (kernel * trace) :=
  match e with
  | Sleep t n =>
      if runnable (status (threads k t)) then Some (timer_sleep t n k)
      else None
  | Tick => Some (timer_interrupt k)
  end.

(** Runs the events from a state and the trace so far; [None] when a
    request comes from a thread that cannot execute. *)
Fixpoint exec (evs : list event) (c : kernel * trace)
    : option (kernel * trace) :=
  match evs with
  | [] => Some c
  | e :: evs' =>
      match step e (fst c) with
      | None => None
      | Some (k1, tr1) => exec evs' (k1, snd c ++ tr1)
      end
  end.

Definition run (evs : list event) : option (kernel * trace) :=
  exec evs (boot, []).

(** A condition [g] holds of every event of a run in the state the event
    happens in. *)
Fixpoint guarded (g : event -> kernel -> bool) (evs : list event)
    (k : kernel) : bool :=
  match evs with
  | [] => true
  | e :: evs' =>
      g e k &&
      match step e k with
      | None => true
      | Some (k1, _) => guarded g evs' k1
      end
  end.

(** The tick arithmetic of an event stays inside [int64_t]: the clock is
    not at its maximum when it is incremented, and the wake-up time of a
    request is representable. *)
Definition fits (e : event) (k : kernel) : bool :=
  match e with
  | Sleep _ n => (n <=? 0) || (ticks k + n <=? INT64_MAX)
  | Tick => ticks k <? INT64_MAX
  end.

Definition no_overflow (evs : list event) : bool := guarded fits evs boot.

(** Thread [t] asks for no positive duration. *)
Definition idle (t : tid) (e : event) (k : kernel) : bool :=
  match e with
  | Sleep u n => negb (Nat.eqb u t) || (n <=? 0)
  | Tick => true
  end.

(** The state and the trace at the end of a run ([boot] and the empty
    trace if the run is not possible). *)
Definition final (evs : list event) : kernel :=
  match run evs with Some (k, _) => k | None => boot end.

Definition history (evs : list event) : trace :=
  match run evs with Some (_, tr) => tr | None => [] end.

(** The scenario of the design document: three threads ask for 5, 1 and
    5 ticks at tick 0; then the clock ticks. *)
Definition three_sleepers : list event :=
  [Sleep 1%nat 5; Sleep 2%nat 1; Sleep 3%nat 5].

Definition five_ticks : list event := [Tick; Tick; Tick; Tick; Tick].

Definition three_sleepers_ticked : list event := three_sleepers ++ [Tick].

(** *** Quantities the properties speak about *)

Definition key (tbl : thread_table) (t : tid) : Z := wakeup_tick (tbl t).

(** The wake-up times along the sleeping list, front first. *)
Definition wake_ticks (k : kernel) : list Z :=
  map (key (threads k)) (sleeping_list k).

(** The least element of a list of ticks, [INT64_MAX] for the empty list. *)
Definition min_tick (l : list Z) : Z :=
  match l with
  | [] => INT64_MAX
  | x :: xs => fold_right Z.min x xs
  end.

(** The number of elements of [l] that satisfy [f]. *)
Definition hits {A : Type} (f : A -> bool) (l : list A) : nat :=
  length (filter f l).

Definition is_examined (a : action) : bool :=
  match a with Examined _ => true | _ => false end.

(** The number of comparisons against list entries in a trace. *)
Definition comparisons (tr : trace) : nat := hits is_examined tr.

Definition is_blocked (t : tid) (w : Z) (a : action) : bool :=
  match a with
  | Blocked t' _ _ w' => Nat.eqb t' t && (w' =? w)
  | _ => false
  end.

Definition is_readied (t : tid) (w : Z) (a : action) : bool :=
  match a with
  | Readied t' w' _ => Nat.eqb t' t && (w' =? w)
  | _ => false
  end.

(** How often [t] went to sleep until [w], and how often the scan made
    that sleeper ready. *)
Definition sleep_count (t : tid) (w : Z) (tr : trace) : nat :=
  hits (is_blocked t w) tr.

Definition wake_count (t : tid) (w : Z) (tr : trace) : nat :=
  hits (is_readied t w) tr.

Definition is_scan (a : action) : bool :=
  match a with Scan _ => true | _ => false end.

(** The number of times the scan was entered. *)
Definition scans (tr : trace) : nat := hits is_scan tr.

(** How often [t] is on the sleeping list with wake-up time [w]. *)
Definition sleeps_until (tbl : thread_table) (t : tid) (w : Z) (u : tid) : bool :=
  Nat.eqb u t && (key tbl u =? w).

Definition pending (tbl : thread_table) (l : list tid) (t : tid) (w : Z) : nat :=
  hits (sleeps_until tbl t w) l.

(** *** Invariants *)

(** The sleeping list and its cache are consistent. *)
Record wf (k : kernel) : Prop := mk_wf {
  wf_nodup : NoDup (sleeping_list k);
  wf_sorted : StronglySorted Z.le (wake_ticks k);
  wf_cache : next_wakeup_tick k = min_tick (wake_ticks k);
  wf_blocked : forall t, In t (sleeping_list k) ->
                         status (threads k t) = THREAD_BLOCKED;
  wf_range : Forall in_int64 (wake_ticks k)
}.

(** Thread [t] is off the sleeping list, can run, and has never parked
    itself. *)
Definition awake (t : tid) (k : kernel) (tr : trace) : Prop :=
  ~ In t (sleeping_list k) /\
  runnable (status (threads k t)) = true /\
  forall start m w, ~ In (Blocked t start m w) tr.

(** The bookkeeping of a run whose tick arithmetic does not overflow:
    sleepers wait for a later tick, the scan has only woken sleepers whose
    time had come, and every sleep is either over or still pending. *)
Record accounted (k : kernel) (tr : trace) : Prop := mk_accounted {
  acc_clock : 0 <= ticks k <= INT64_MAX;
  acc_later : forall t, In t (sleeping_list k) -> ticks k < key (threads k) t;
  acc_woken : forall t w now, In (Readied t w now) tr -> w <= now <= ticks k;
  acc_slept : forall t start n w, In (Blocked t start n w) tr ->
                0 < n /\ w = start + n /\ 0 <= start <= ticks k;
  acc_count : forall t w,
      sleep_count t w tr = (wake_count t w tr + pending (threads k) (sleeping_list k) t w)%nat;
  acc_once : forall t w, (sleep_count t w tr <= 1)%nat
}.

(** *** The interrupts of a run *)

Definition is_tick (e : event) : bool :=
  match e with Tick => true | Sleep _ _ => false end.

(** The number of timer interrupts among the events. *)
Definition tick_count (evs : list event) : Z := Z.of_nat (hits is_tick evs).

(** *** The sleeps and wake-ups of one thread *)

Definition concerns (t : tid) (a : action) : bool :=
  match a with
  | Blocked u _ _ _ => Nat.eqb u t
  | Readied u _ _ => Nat.eqb u t
  | _ => false
  end.

(** What the alarm clock did to thread [t], in order. *)
Definition events_of (t : tid) (tr : trace) : trace := filter (concerns t) tr.

(** Replays the sleeps and wake-ups of one thread.  The state is [None]
    while the thread is awake and [Some w] while it sleeps until [w].  A
    sleep is possible only when awake; a wake-up is possible only when
    asleep, and it must carry the wake-up time of that sleep.  The result
    is the state at the end, or [None] when some event was not possible:
    a second sleep before a wake-up, a wake-up without a sleep, a second
    wake-up for one sleep. *)
Fixpoint replay (st : option Z) (l : trace) : option (option Z) :=
  match l with
  | [] => Some st
  | Blocked _ _ _ w :: rest =>
      match st with
      | None => replay (Some w) rest
      | Some _ => None
      end
  | Readied _ w _ :: rest =>
      match st with
      | Some w' => if w =? w' then replay None rest else None
      | None => None
      end
  | _ :: rest => replay st rest
  end.


(** Every thread's sleeps and wake-ups pair up one to one; the only sleep
    without a wake-up is the one of a thread on the sleeping list. *)
Definition paired (k : kernel) (tr : trace) : Prop :=
  forall t,
    replay None (events_of t tr) =
    Some (if in_dec Nat.eq_dec t (sleeping_list k)
          then Some (key (threads k) t) else None).

End Timer.

(** ** Facts about the machine arithmetic *)
Module MachineFacts.
Import Machine.

(** Goals about the bounds of the two integer types. *)
Ltac range :=
  unfold in_int32, in_int64, INT_MIN, INT_MAX, INT64_MIN, INT64_MAX in *; lia.

Lemma wrap32_small z : in_int32 z -> wrap32 z = z.
Proof.
  unfold in_int32, INT_MIN, INT_MAX, wrap32, wrap; intros H.
  change (2 ^ (32 - 1)) with 2147483648.
  change (2 ^ 32) with 4294967296.
  rewrite Z.mod_small; lia.
Qed.

Lemma wrap64_small z : in_int64 z -> wrap64 z = z.
Proof.
  unfold in_int64, INT64_MIN, INT64_MAX, wrap64, wrap; intros H.
  change (2 ^ (64 - 1)) with 9223372036854775808.
  change (2 ^ 64) with 18446744073709551616.
  rewrite Z.mod_small; lia.
Qed.

Lemma wrap32_range z : in_int32 (wrap32 z).
Proof.
  unfold in_int32, INT_MIN, INT_MAX, wrap32, wrap.
  change (2 ^ (32 - 1)) with 2147483648.
  change (2 ^ 32) with 4294967296.
  pose proof (Z.mod_pos_bound (z + 2147483648) 4294967296 eq_refl). lia.
Qed.

Lemma wrap64_range z : in_int64 (wrap64 z).
Proof.
  unfold in_int64, INT64_MIN, INT64_MAX, wrap64, wrap.
  change (2 ^ (64 - 1)) with 9223372036854775808.
  change (2 ^ 64) with 18446744073709551616.
  pose proof (Z.mod_pos_bound (z + 9223372036854775808)
                18446744073709551616 eq_refl). lia.
Qed.

End MachineFacts.

(** ** Properties of the fixed-point helpers *)
Module FixedPointSpec.
Import Machine MachineFacts FixedPoint.

Lemma FP_F_val : FP_F = 16384.
Proof. reflexivity. Qed.

Lemma sdiv32_FP_F x : sdiv32 x FP_F = Some (Z.quot x FP_F).
Proof. unfold sdiv32, sdiv; simpl; now rewrite andb_false_r. Qed.

Lemma sdiv64_FP_F x : sdiv64 x FP_F = Some (Z.quot x FP_F).
Proof. unfold sdiv64, sdiv; simpl; now rewrite andb_false_r. Qed.

Example fp_one_and_a_half : fp_to_int_nearest 24576 = 2.
Proof. reflexivity. Qed.

Example fp_minus_one_and_a_half : fp_to_int_nearest (-24576) = -2.
Proof. reflexivity. Qed.

Example fp_div_three_by_two : fp_div (fp_int_to_fp 3) (fp_int_to_fp 2) = Some 24576.
Proof. reflexivity. Qed.

Lemma fp_int_to_fp_exact n : in_int32 (n * 16384) -> fp_int_to_fp n = n * 16384.
Proof. intros H; unfold fp_int_to_fp; rewrite FP_F_val; now apply wrap32_small. Qed.

Lemma fp_half : Z.quot FP_F 2 = 8192.
Proof. reflexivity. Qed.

(** The rounding sum of a non-negative tie lands on the next multiple of
    [FP_F]; it is representable up to [k = 131070]. *)
Lemma nearest_tie_nonneg k :
  0 <= k <= 131070 -> fp_to_int_nearest (k * 16384 + 8192) = k + 1.
Proof.
  intros Hk. unfold fp_to_int_nearest.
  destruct (Z.geb_spec (k * 16384 + 8192) 0) as [_ | Hneg]; [| lia].
  rewrite fp_half, FP_F_val.
  replace (k * 16384 + 8192 + 8192) with ((k + 1) * 16384) by ring.
  rewrite wrap32_small by range.
  apply Z.quot_mul; lia.
Qed.

Lemma nearest_tie_neg k :
  0 <= k <= 131071 -> fp_to_int_nearest (- (k * 16384 + 8192)) = - (k + 1).
Proof.
  intros Hk. unfold fp_to_int_nearest.
  destruct (Z.geb_spec (- (k * 16384 + 8192)) 0) as [Hpos | _]; [lia |].
  rewrite fp_half, FP_F_val.
  replace (- (k * 16384 + 8192) - 8192) with ((- (k + 1)) * 16384) by ring.
  rewrite wrap32_small by range.
  apply Z.quot_mul; lia.
Qed.

(** C7, as stated, fails at the largest non-negative tie: the value
    131071.5 is a 32-bit fixed-point number, but the rounding sum
    [x + FP_F / 2] is 2^31 and wraps, so the result is -131072 and not
    131072. *)
Lemma fp_to_int_nearest_largest_tie :
  0 <= 131071 /\
  in_int32 (131071 * 16384 + 8192) /\
  fp_to_int_nearest (131071 * 16384 + 8192) = -131072 /\
  fp_to_int_nearest (131071 * 16384 + 8192) <> 131071 + 1.
Proof.
  repeat split; try (vm_compute; congruence).
Qed.

(** C7 (amended): for every integer k with 0 <= k <= 131070 the tie
    k + 1/2 rounds to k + 1 and the tie -(k + 1/2) rounds to -(k + 1),
    away from zero; the last negative tie, -131071.5, rounds to -131072.
    In particular 1.5 maps to 2 and -1.5 maps to -2. *)
Theorem fp_to_int_nearest_ties k :
  0 <= k <= 131070 ->
  fp_to_int_nearest (k * FP_F + Z.quot FP_F 2) = k + 1 /\
  fp_to_int_nearest (- (k * FP_F + Z.quot FP_F 2)) = - (k + 1) /\
  fp_to_int_nearest (- (131071 * FP_F + Z.quot FP_F 2)) = - (131071 + 1).
Proof.
  intros Hk. rewrite fp_half, FP_F_val.
  split; [| split].
  - now apply nearest_tie_nonneg.
  - apply nearest_tie_neg; lia.
  - apply nearest_tie_neg; lia.
Qed.

Lemma fp_to_int_nearest_ties_witness :
  0 <= 1 <= 131070 /\
  fp_to_int_nearest 24576 = 2 /\ fp_to_int_nearest (-24576) = -2.
Proof.
  assert (H : 0 <= 1 <= 131070) by lia.
  destruct (fp_to_int_nearest_ties 1 H) as (Hp & Hn & _).
  split; [exact H |]. split; [exact Hp | exact Hn].
Defined.

(** C8: for every integer n whose scaled value n * 16384 fits a 32-bit
    signed integer, converting to fixed point and truncating back gives
    n again. *)
Theorem fp_round_trip n :
  in_int32 (n * 16384) -> fp_to_int_zero (fp_int_to_fp n) = n.
Proof.
  intros H. rewrite fp_int_to_fp_exact by exact H.
  unfold fp_to_int_zero. rewrite FP_F_val. apply Z.quot_mul. lia.
Qed.

Lemma fp_round_trip_witness :
  in_int32 (-7 * 16384) /\ fp_to_int_zero (fp_int_to_fp (-7)) = -7.
Proof.
  assert (H : in_int32 (-7 * 16384)) by range.
  split; [exact H | exact (fp_round_trip (-7) H)].
Defined.

(** C9, as stated, fails for [fp_div_int]: the divisor -1 is not zero,
    yet INT_MIN / -1 is not representable and the division is undefined. *)
Lemma fp_div_int_min_by_minus_one :
  in_int32 INT_MIN /\ in_int32 (-1) /\ -1 <> 0 /\
  fp_div_int INT_MIN (-1) = None.
Proof.
  unfold in_int32, INT_MIN, INT_MAX. repeat split; try lia.
Qed.

Lemma sdiv_defined lo a b :
  sdiv lo a b <> None <-> b <> 0 /\ ~ (a = lo /\ b = -1).
Proof.
  unfold sdiv.
  destruct (Z.eqb_spec b 0) as [E0 | N0].
  - split; [congruence | intros [H _]; contradiction].
  - destruct (Z.eqb_spec a lo) as [Ea | Na];
      destruct (Z.eqb_spec b (-1)) as [Eb | Nb]; simpl;
      split; try congruence; try tauto;
      intros _; split; tauto.
Qed.

(** C9 (amended): neither division guards its divisor, so a zero divisor
    reaches the undefined case for every dividend.  On 32-bit operands
    [fp_div] is defined exactly when the divisor is not zero; [fp_div_int]
    is defined exactly when the divisor is not zero and the operation is
    not INT_MIN / -1. *)
Theorem fp_div_defined x y :
  in_int32 x -> in_int32 y ->
  fp_div x 0 = None /\ fp_div_int x 0 = None /\
  (fp_div x y <> None <-> y <> 0) /\
  (fp_div_int x y <> None <-> y <> 0 /\ ~ (x = INT_MIN /\ y = -1)).
Proof.
  intros Hx Hy. split; [reflexivity |]. split; [reflexivity |]. split.
  - unfold fp_div, sdiv64.
    assert (Hd : sdiv INT64_MIN (wrap64 (x * FP_F)) y <> None <-> y <> 0).
    { rewrite sdiv_defined. rewrite FP_F_val.
      rewrite wrap64_small
        by range.
      unfold in_int32, INT_MIN, INT_MAX, INT64_MIN in *.
      split; [tauto | intros H; split; [exact H | lia]]. }
    destruct (sdiv INT64_MIN (wrap64 (x * FP_F)) y) as [q |]; simpl.
    + split; [intros _; apply Hd; congruence | congruence].
    + split; [congruence | intros H; apply Hd in H; congruence].
  - unfold fp_div_int, sdiv32. apply sdiv_defined.
Qed.

Lemma fp_div_defined_witness :
  in_int32 24576 /\ in_int32 32768 /\
  fp_div 24576 0 = None /\ fp_div_int 24576 0 = None /\
  (fp_div 24576 32768 <> None <-> 32768 <> 0) /\
  (fp_div_int 24576 32768 <> None <->
   32768 <> 0 /\ ~ (24576 = INT_MIN /\ 32768 = -1)).
Proof.
  assert (Hx : in_int32 24576) by range.
  assert (Hy : in_int32 32768) by range.
  split; [exact Hx |]. split; [exact Hy |].
  exact (fp_div_defined 24576 32768 Hx Hy).
Defined.

(** C10: for every 32-bit x and every n with -131072 <= n <= 131071,
    multiplying by the plain integer is multiplying by its fixed-point
    conversion through the widened path, under 32-bit wrap-around. *)
Theorem fp_mul_int_refines_fp_mul x n :
  in_int32 x -> -131072 <= n <= 131071 ->
  fp_mul_int x n = fp_mul x (fp_int_to_fp n).
Proof.
  intros Hx Hn.
  rewrite fp_int_to_fp_exact by range.
  unfold fp_mul_int, fp_mul. rewrite FP_F_val.
  rewrite wrap64_small.
  - replace (x * (n * 16384)) with (x * n * 16384) by ring.
    rewrite Z.quot_mul by lia. reflexivity.
  - unfold in_int32, in_int64, INT_MIN, INT_MAX, INT64_MIN, INT64_MAX in *. nia.
Qed.

Lemma fp_mul_int_refines_fp_mul_witness :
  in_int32 24576 /\ -131072 <= -3 <= 131071 /\
  fp_mul_int 24576 (-3) = fp_mul 24576 (fp_int_to_fp (-3)).
Proof.
  assert (Hx : in_int32 24576) by range.
  assert (Hn : -131072 <= -3 <= 131071) by lia.
  split; [exact Hx |]. split; [exact Hn |].
  exact (fp_mul_int_refines_fp_mul 24576 (-3) Hx Hn).
Defined.

End FixedPointSpec.

(** ** Properties of the alarm clock *)
Module TimerSpec.
Import Machine MachineFacts Timer.

(** *** The thread table *)

Lemma update_same tbl t th : update tbl t th t = th.
Proof. unfold update. now rewrite Nat.eqb_refl. Qed.

Lemma update_other tbl t th u : u <> t -> update tbl t th u = tbl u.
Proof.
  intros H. unfold update.
  destruct (Nat.eqb_spec u t); [contradiction | reflexivity].
Qed.

Lemma key_thread_block tbl t u : key (thread_block tbl t) u = key tbl u.
Proof.
  unfold key, thread_block, update.
  destruct (Nat.eqb_spec u t) as [-> | _]; reflexivity.
Qed.

Lemma key_thread_unblock tbl t u : key (thread_unblock tbl t) u = key tbl u.
Proof.
  unfold key, thread_unblock, update.
  destruct (Nat.eqb_spec u t) as [-> | _]; reflexivity.
Qed.

Lemma key_set_same tbl t w : key (set_wakeup_tick tbl t w) t = w.
Proof. unfold key, set_wakeup_tick. now rewrite update_same. Qed.

Lemma key_set_other tbl t w u :
  u <> t -> key (set_wakeup_tick tbl t w) u = key tbl u.
Proof. intros H. unfold key, set_wakeup_tick. now rewrite update_other. Qed.

Lemma keys_set_fresh tbl t w l :
  ~ In t l -> map (key (set_wakeup_tick tbl t w)) l = map (key tbl) l.
Proof.
  intros Hn. apply map_ext_in. intros u Hu.
  apply key_set_other. intros ->. contradiction.
Qed.

(** *** The least wake-up time *)

Lemma min_tick_le l x : In x l -> min_tick l <= x.
Proof.
  destruct l as [| y ys]; [intros [] |]. simpl.
  revert x. induction ys as [| z zs IH]; simpl; intros x Hx.
  - destruct Hx as [-> | []]. lia.
  - destruct Hx as [-> | [-> | Hx]].
    + specialize (IH x (or_introl eq_refl)). lia.
    + lia.
    + specialize (IH x (or_intror Hx)). lia.
Qed.

Lemma min_tick_In l : l <> [] -> In (min_tick l) l.
Proof.
  destruct l as [| y ys]; [congruence | intros _]. simpl.
  induction ys as [| z zs IH]; simpl.
  - now left.
  - destruct (Z.min_spec z (fold_right Z.min y zs)) as [[_ ->] | [_ ->]].
    + right; now left.
    + destruct IH as [IH | IH]; [now left | right; now right].
Qed.

Lemma min_tick_sorted l :
  StronglySorted Z.le l -> min_tick l = hd INT64_MAX l.
Proof.
  intros H. destruct l as [| x xs]; [reflexivity |].
  apply StronglySorted_inv in H. destruct H as [_ Hall]. simpl.
  induction Hall as [| y ys Hy _ IH]; simpl; [reflexivity | lia].
Qed.

(** *** Ordered insertion *)

Lemma insert_perm less x l :
  Permutation (list_insert_ordered less x l) (x :: l).
Proof.
  induction l as [| e rest IH]; simpl.
  - reflexivity.
  - destruct (less x e).
    + reflexivity.
    + rewrite IH. apply perm_swap.
Qed.

Lemma insert_sorted tbl x l :
  StronglySorted Z.le (map (key tbl) l) ->
  StronglySorted Z.le
    (map (key tbl) (list_insert_ordered (wakeup_time_less tbl) x l)).
Proof.
  induction l as [| e rest IH]; simpl; intros Hs.
  - constructor; constructor.
  - apply StronglySorted_inv in Hs. destruct Hs as [Hrest Hall].
    unfold wakeup_time_less at 1. fold (key tbl x) (key tbl e).
    destruct (Z.ltb_spec (key tbl x) (key tbl e)) as [Hlt | Hge]; simpl.
    + constructor.
      * constructor; assumption.
      * constructor; [lia |].
        eapply Forall_impl; [| exact Hall]. simpl. intros; lia.
    + constructor.
      * now apply IH.
      * eapply Permutation_Forall.
        { symmetry. apply Permutation_map. apply insert_perm. }
        simpl. constructor; assumption.
Qed.

(** The head of the list after an insertion. *)
Lemma insert_head tbl x l :
  hd INT64_MAX (map (key tbl) (list_insert_ordered (wakeup_time_less tbl) x l)) =
  match l with
  | [] => key tbl x
  | e :: _ => if key tbl x <? key tbl e then key tbl x else key tbl e
  end.
Proof.
  destruct l as [| e rest]; simpl; [reflexivity |].
  unfold wakeup_time_less. fold (key tbl x) (key tbl e).
  destruct (key tbl x <? key tbl e); reflexivity.
Qed.

(** *** The scan *)

(** What [wake_due] does to the list and to the thread table: it cuts a
    prefix of due entries, makes exactly these ready, and leaves every
    [wakeup_tick] alone. *)
Lemma wake_due_split now tbl l :
  exists woken,
    l = woken ++ snd (fst (wake_due now tbl l)) /\
    (forall u, In u woken -> key tbl u <= now) /\
    (forall u, key (fst (fst (wake_due now tbl l))) u = key tbl u) /\
    (forall u, ~ In u woken -> fst (fst (wake_due now tbl l)) u = tbl u) /\
    match snd (fst (wake_due now tbl l)) with
    | [] => True
    | t :: _ => now < key tbl t
    end.
Proof.
  revert tbl. induction l as [| t rest IH]; intros tbl; simpl.
  - exists []. simpl. repeat split; auto. intros u [].
  - fold (key tbl t).
    destruct (Z.leb_spec (key tbl t) now) as [Hdue | Hlater].
    + specialize (IH (thread_unblock tbl t)).
      destruct (wake_due now (thread_unblock tbl t) rest) as [[tbl' l'] tr].
      simpl in *. destruct IH as (woken & Hl & Hw & Hk & Hs & Hh).
      exists (t :: woken). simpl. repeat split.
      * now f_equal.
      * intros u [<- | Hu]; [exact Hdue |].
        rewrite <- (key_thread_unblock tbl t u). now apply Hw.
      * intros u. rewrite Hk. apply key_thread_unblock.
      * intros u Hu. rewrite Hs by tauto.
        unfold thread_unblock. apply update_other. intros ->. tauto.
      * destruct l' as [| t' l'']; [exact I |].
        now rewrite <- (key_thread_unblock tbl t t').
    + exists []. simpl. repeat split; auto. intros u [].
Qed.

Lemma sorted_suffix (a b : list Z) :
  StronglySorted Z.le (a ++ b) -> StronglySorted Z.le b.
Proof.
  induction a as [| x a IH]; simpl; intros H; [exact H |].
  apply StronglySorted_inv in H. now apply IH.
Qed.

Lemma hd_keys tbl l :
  hd INT64_MAX (map (key tbl) l) =
  match l with [] => INT64_MAX | t :: _ => wakeup_tick (tbl t) end.
Proof. destruct l; reflexivity. Qed.

(** *** The invariant of the list and the cache *)

Lemma wf_boot : wf boot.
Proof.
  constructor; simpl.
  - constructor.
  - constructor.
  - reflexivity.
  - intros t [].
  - constructor.
Qed.

Lemma wf_not_sleeping k t :
  wf k -> runnable (status (threads k t)) = true -> ~ In t (sleeping_list k).
Proof.
  intros Hwf Hrun Hin. rewrite (wf_blocked k Hwf t Hin) in Hrun. discriminate.
Qed.

Lemma wf_timer_sleep k cur n :
  wf k -> runnable (status (threads k cur)) = true ->
  wf (fst (timer_sleep cur n k)).
Proof.
  intros Hwf Hrun. pose proof (wf_not_sleeping k cur Hwf Hrun) as Hfresh.
  unfold timer_sleep. destruct (n <=? 0); [exact Hwf |].
  set (w := wrap64 (ticks k + n)).
  set (tbl1 := set_wakeup_tick (threads k) cur w).
  set (sl := list_insert_ordered (wakeup_time_less tbl1) cur (sleeping_list k)).
  assert (Hperm : Permutation sl (cur :: sleeping_list k)) by apply insert_perm.
  assert (Hkeys : map (key (thread_block tbl1 cur)) sl = map (key tbl1) sl).
  { apply map_ext. intros u. apply key_thread_block. }
  assert (Hold : map (key tbl1) (sleeping_list k) = wake_ticks k).
  { apply keys_set_fresh. exact Hfresh. }
  assert (Hsorted : StronglySorted Z.le (map (key tbl1) sl)).
  { apply insert_sorted. rewrite Hold. apply (wf_sorted k Hwf). }
  assert (Hw : key tbl1 cur = w) by apply key_set_same.
  constructor; simpl; unfold wake_ticks; simpl; fold tbl1 sl.
  - eapply Permutation_NoDup; [symmetry; exact Hperm |].
    constructor; [exact Hfresh | apply (wf_nodup k Hwf)].
  - now rewrite Hkeys.
  - rewrite Hkeys, (min_tick_sorted _ Hsorted).
    unfold sl. rewrite insert_head.
    rewrite (wf_cache k Hwf), (min_tick_sorted _ (wf_sorted k Hwf)).
    unfold wake_ticks.
    destruct (sleeping_list k) as [| e rest] eqn:El; simpl.
    + rewrite Hw. pose proof (wrap64_range (ticks k + n)) as Hr. fold w in Hr.
      unfold in_int64 in Hr.
      destruct (Z.ltb_spec w INT64_MAX); [reflexivity | lia].
    + assert (He : key tbl1 e = key (threads k) e).
      { apply key_set_other. intros ->. apply Hfresh. now left. }
      rewrite Hw, He. reflexivity.
  - intros t Ht. apply (Permutation_in _ Hperm) in Ht.
    destruct Ht as [<- | Ht].
    + unfold thread_block. now rewrite update_same.
    + assert (Hne : t <> cur) by (intros ->; contradiction).
      unfold thread_block, tbl1, set_wakeup_tick.
      rewrite !update_other by exact Hne. now apply (wf_blocked k Hwf).
  - rewrite Hkeys.
    eapply Permutation_Forall.
    { symmetry. apply Permutation_map. exact Hperm. }
    simpl. constructor.
    + rewrite Hw. apply wrap64_range.
    + rewrite Hold. apply (wf_range k Hwf).
Qed.

Lemma wf_check_sleeping_threads k :
  wf k -> wf (fst (check_sleeping_threads k)).
Proof.
  intros Hwf. unfold check_sleeping_threads.
  destruct (wake_due_split (ticks k) (threads k) (sleeping_list k))
    as (woken & Hl & _ & Hk & Hs & _).
  destruct (wake_due (ticks k) (threads k) (sleeping_list k)) as [[tbl' l'] tr].
  simpl in *.
  assert (Hkeys : map (key tbl') l' = map (key (threads k)) l').
  { apply map_ext. exact Hk. }
  assert (Hall : wake_ticks k = map (key (threads k)) woken ++ map (key tbl') l').
  { unfold wake_ticks. rewrite Hl at 1. rewrite map_app. now rewrite Hkeys. }
  pose proof (wf_nodup k Hwf) as Hnd. rewrite Hl in Hnd.
  assert (Hsorted : StronglySorted Z.le (map (key tbl') l')).
  { eapply sorted_suffix. rewrite <- Hall. apply (wf_sorted k Hwf). }
  constructor; simpl; unfold wake_ticks; simpl.
  - eapply NoDup_app_remove_l. exact Hnd.
  - exact Hsorted.
  - rewrite (min_tick_sorted _ Hsorted). symmetry. apply hd_keys.
  - intros t Ht.
    assert (Hnw : ~ In t woken).
    { intros Hw. revert Hnd Hw Ht. clear. induction woken as [| x xs IH]; simpl.
      - tauto.
      - intros Hnd [-> | Hw] Ht.
        + apply NoDup_cons_iff in Hnd. destruct Hnd as [Hx _].
          apply Hx. apply in_or_app. now right.
        + apply NoDup_cons_iff in Hnd. destruct Hnd as [_ Hnd]. now apply IH. }
    rewrite (Hs t Hnw). apply (wf_blocked k Hwf).
    rewrite Hl. apply in_or_app. now right.
  - pose proof (wf_range k Hwf) as Hr. rewrite Hall in Hr.
    apply Forall_app in Hr. tauto.
Qed.

Lemma wf_timer_interrupt k : wf k -> wf (fst (timer_interrupt k)).
Proof.
  intros Hwf. unfold timer_interrupt, thread_tick.
  set (k1 := mkKernel (wrap64 (ticks k + 1)) (next_wakeup_tick k)
                      (sleeping_list k) (threads k)).
  assert (Hwf1 : wf k1) by (destruct Hwf; constructor; assumption).
  destruct (ticks k1 >=? next_wakeup_tick k1).
  - now apply wf_check_sleeping_threads.
  - exact Hwf1.
Qed.

Lemma wf_step e k k1 tr1 : wf k -> step e k = Some (k1, tr1) -> wf k1.
Proof.
  intros Hwf Hstep. destruct e as [t n |]; simpl in Hstep.
  - destruct (runnable (status (threads k t))) eqn:Hrun; [| discriminate].
    injection Hstep as Hs. pose proof (wf_timer_sleep k t n Hwf Hrun) as H.
    now rewrite Hs in H.
  - injection Hstep as Hs. pose proof (wf_timer_interrupt k Hwf) as H.
    now rewrite Hs in H.
Qed.

(** *** Runs preserve what every step preserves *)

Lemma exec_preserves (g : event -> kernel -> bool)
    (P : kernel -> trace -> Prop) :
  (forall e k tr k1 tr1,
      P k tr -> g e k = true -> step e k = Some (k1, tr1) -> P k1 (tr ++ tr1)) ->
  forall evs k tr k' tr',
    P k tr -> guarded g evs k = true -> exec evs (k, tr) = Some (k', tr') ->
    P k' tr'.
Proof.
  intros Hstep. induction evs as [| e evs IH]; simpl; intros k tr k' tr' HP Hg Hex.
  - injection Hex as <- <-. exact HP.
  - apply andb_prop in Hg. destruct Hg as [Hge Hg].
    destruct (step e k) as [[k1 tr1] |] eqn:Hs; [| discriminate].
    eapply IH; [| exact Hg | exact Hex].
    eapply Hstep; eassumption.
Qed.

Lemma guarded_true evs k : guarded (fun _ _ => true) evs k = true.
Proof.
  revert k. induction evs as [| e evs IH]; intros k; simpl; [reflexivity |].
  destruct (step e k) as [[k1 tr1] |]; auto.
Qed.

Lemma run_wf evs k tr : run evs = Some (k, tr) -> wf k.
Proof.
  intros Hrun.
  apply (exec_preserves (fun _ _ => true) (fun k _ => wf k))
    with (evs := evs) (k := boot) (tr := []) (tr' := tr).
  - intros e k0 tr0 k1 tr1 Hwf _ Hs. eapply wf_step; eassumption.
  - apply wf_boot.
  - apply guarded_true.
  - exact Hrun.
Qed.

(** *** The scan's trace *)

Lemma wake_due_trace now tbl l a :
  In a (snd (wake_due now tbl l)) ->
  (exists t, a = Examined t) \/
  (exists t, a = Readied t (key tbl t) now /\ In t l /\ key tbl t <= now).
Proof.
  revert tbl. induction l as [| t rest IH]; intros tbl; simpl.
  - intros [].
  - fold (key tbl t).
    destruct (Z.leb_spec (key tbl t) now) as [Hdue | Hlater].
    + specialize (IH (thread_unblock tbl t)).
      destruct (wake_due now (thread_unblock tbl t) rest) as [[tbl' l'] tr].
      simpl in *. intros [<- | [<- | Ha]].
      * left. now exists t.
      * right. exists t. auto.
      * destruct (IH Ha) as [Hex | (u & -> & Hu & Hk)]; [now left |].
        right. exists u. rewrite key_thread_unblock in *. auto.
    + simpl. intros [<- | []]. left. now exists t.
Qed.

Lemma wake_due_no_block now tbl l t start n w :
  ~ In (Blocked t start n w) (snd (wake_due now tbl l)).
Proof.
  intros H. apply wake_due_trace in H.
  destruct H as [(u & H) | (u & H & _)]; discriminate.
Qed.

(** *** The examples of the design document *)

Example three_sleepers_registry :
  sleeping_list (final three_sleepers) = [2; 1; 3]%nat /\
  wake_ticks (final three_sleepers) = [1; 5; 5] /\
  next_wakeup_tick (final three_sleepers) = 1.
Proof. repeat split. Qed.

Example three_sleepers_after_one_tick :
  sleeping_list (final (three_sleepers ++ [Tick])) = [1; 3]%nat /\
  status (threads (final (three_sleepers ++ [Tick])) 2%nat) = THREAD_READY /\
  next_wakeup_tick (final (three_sleepers ++ [Tick])) = 5.
Proof. repeat split. Qed.

Example three_sleepers_after_five_ticks :
  sleeping_list (final (three_sleepers ++ five_ticks)) = [] /\
  next_wakeup_tick (final (three_sleepers ++ five_ticks)) = INT64_MAX /\
  filter (fun a => negb (is_examined a || is_scan a))
         (history (three_sleepers ++ five_ticks)) =
  [Blocked 1%nat 0 5 5; Blocked 2%nat 0 1 1; Blocked 3%nat 0 5 5;
   Readied 2%nat 1 1; Readied 1%nat 5 5; Readied 3%nat 5 5].
Proof. repeat split. Qed.

(** C3: after every run, hence after every operation that changes the
    sleeping list, [next_wakeup_tick] is the least [wakeup_tick] on the
    list, and [INT64_MAX] when the list is empty. *)
Theorem cache_is_minimum evs k tr :
  run evs = Some (k, tr) ->
  next_wakeup_tick k = min_tick (wake_ticks k) /\
  (sleeping_list k = [] -> next_wakeup_tick k = INT64_MAX) /\
  (forall t, In t (sleeping_list k) ->
             next_wakeup_tick k <= wakeup_tick (threads k t)) /\
  (sleeping_list k <> [] ->
   exists t, In t (sleeping_list k) /\
             next_wakeup_tick k = wakeup_tick (threads k t)).
Proof.
  intros Hrun. pose proof (run_wf evs k tr Hrun) as Hwf.
  pose proof (wf_cache k Hwf) as Hc. split; [exact Hc |]. split; [| split].
  - intros He. rewrite Hc. unfold wake_ticks. now rewrite He.
  - intros t Ht. rewrite Hc. apply min_tick_le.
    unfold wake_ticks. apply (in_map (key (threads k))) in Ht. exact Ht.
  - intros Hne.
    assert (Hk : wake_ticks k <> []).
    { unfold wake_ticks. destruct (sleeping_list k); [congruence | discriminate]. }
    apply min_tick_In in Hk. unfold wake_ticks in Hk at 2.
    apply in_map_iff in Hk. destruct Hk as (t & Ht & Hin).
    exists t. split; [exact Hin |]. rewrite Hc. symmetry. exact Ht.
Qed.

Lemma cache_is_minimum_witness :
  run (three_sleepers ++ [Tick]) =
    Some (final (three_sleepers ++ [Tick]), history (three_sleepers ++ [Tick])) /\
  next_wakeup_tick (final (three_sleepers ++ [Tick])) =
    min_tick (wake_ticks (final (three_sleepers ++ [Tick]))).
Proof.
  assert (H : run (three_sleepers ++ [Tick]) =
              Some (final (three_sleepers ++ [Tick]),
                    history (three_sleepers ++ [Tick]))) by reflexivity.
  split; [exact H |].
  exact (proj1 (cache_is_minimum _ _ _ H)).
Defined.

(** C5: after every run of insertions by [timer_sleep] and removals by
    the scan, the sleeping list is ascending by [wakeup_tick] and holds
    every thread at most once. *)
Theorem registry_sorted_nodup evs k tr :
  run evs = Some (k, tr) ->
  StronglySorted Z.le (wake_ticks k) /\ NoDup (sleeping_list k).
Proof.
  intros Hrun. pose proof (run_wf evs k tr Hrun) as Hwf.
  split; [apply (wf_sorted k Hwf) | apply (wf_nodup k Hwf)].
Qed.

Lemma registry_sorted_nodup_witness :
  run three_sleepers = Some (final three_sleepers, history three_sleepers) /\
  StronglySorted Z.le (wake_ticks (final three_sleepers)) /\
  NoDup (sleeping_list (final three_sleepers)).
Proof.
  assert (H : run three_sleepers =
              Some (final three_sleepers, history three_sleepers)) by reflexivity.
  split; [exact H |].
  exact (registry_sorted_nodup _ _ _ H).
Defined.

(** C6: on a tick after whose increment the clock is still below
    [next_wakeup_tick], [timer_interrupt] does not enter the scan: its
    trace is empty, so no list entry is compared, and the list, the cache
    and the threads are as before. *)
Theorem scan_skipped k :
  wrap64 (ticks k + 1) < next_wakeup_tick k ->
  snd (timer_interrupt k) = [] /\
  scans (snd (timer_interrupt k)) = 0%nat /\
  comparisons (snd (timer_interrupt k)) = 0%nat /\
  sleeping_list (fst (timer_interrupt k)) = sleeping_list k /\
  next_wakeup_tick (fst (timer_interrupt k)) = next_wakeup_tick k /\
  threads (fst (timer_interrupt k)) = threads k /\
  ticks (fst (timer_interrupt k)) = wrap64 (ticks k + 1).
Proof.
  intros Hlt. unfold timer_interrupt, thread_tick. simpl.
  destruct (Z.geb_spec (wrap64 (ticks k + 1)) (next_wakeup_tick k)) as [Hge | _].
  - lia.
  - simpl. repeat split.
Qed.

Lemma scan_skipped_witness :
  wrap64 (ticks (final three_sleepers_ticked) + 1)
    < next_wakeup_tick (final three_sleepers_ticked) /\
  snd (timer_interrupt (final three_sleepers_ticked)) = [] /\
  comparisons (snd (timer_interrupt (final three_sleepers_ticked))) = 0%nat /\
  sleeping_list (fst (timer_interrupt (final three_sleepers_ticked))) = [1; 3]%nat.
Proof.
  assert (H : wrap64 (ticks (final three_sleepers_ticked) + 1)
              < next_wakeup_tick (final three_sleepers_ticked)) by reflexivity.
  destruct (scan_skipped _ H) as (Ht & _ & Hc & Hl & _).
  split; [exact H |]. split; [exact Ht |]. split; [exact Hc | exact Hl].
Defined.

(** *** Threads off the list are left alone *)

Lemma check_untouched k t :
  ~ In t (sleeping_list k) ->
  ~ In t (sleeping_list (fst (check_sleeping_threads k))) /\
  threads (fst (check_sleeping_threads k)) t = threads k t.
Proof.
  intros Hn. unfold check_sleeping_threads.
  destruct (wake_due_split (ticks k) (threads k) (sleeping_list k))
    as (woken & Hl & _ & _ & Hs & _).
  destruct (wake_due (ticks k) (threads k) (sleeping_list k)) as [[tbl' l'] tr].
  simpl in *. rewrite Hl in Hn. split.
  - intros H. apply Hn. apply in_or_app. now right.
  - apply Hs. intros H. apply Hn. apply in_or_app. now left.
Qed.

Lemma timer_interrupt_untouched k t :
  ~ In t (sleeping_list k) ->
  ~ In t (sleeping_list (fst (timer_interrupt k))) /\
  threads (fst (timer_interrupt k)) t = threads k t.
Proof.
  intros Hn. unfold timer_interrupt, thread_tick.
  set (k1 := mkKernel (wrap64 (ticks k + 1)) (next_wakeup_tick k)
                      (sleeping_list k) (threads k)).
  destruct (ticks k1 >=? next_wakeup_tick k1).
  - apply (check_untouched k1 t). exact Hn.
  - simpl. now split.
Qed.

Lemma timer_interrupt_no_block k t start n w :
  ~ In (Blocked t start n w) (snd (timer_interrupt k)).
Proof.
  unfold timer_interrupt, thread_tick.
  set (k1 := mkKernel (wrap64 (ticks k + 1)) (next_wakeup_tick k)
                      (sleeping_list k) (threads k)).
  destruct (ticks k1 >=? next_wakeup_tick k1); simpl; [| tauto].
  unfold check_sleeping_threads.
  pose proof (wake_due_no_block (ticks k1) (threads k1) (sleeping_list k1)
                                t start n w) as Hnb.
  destruct (wake_due (ticks k1) (threads k1) (sleeping_list k1)) as [[tbl' l'] tr].
  simpl in *. intros [H | H]; [discriminate | contradiction].
Qed.

Lemma step_sleep u n k k1 tr1 :
  step (Sleep u n) k = Some (k1, tr1) ->
  runnable (status (threads k u)) = true /\
  k1 = fst (timer_sleep u n k) /\ tr1 = snd (timer_sleep u n k).
Proof.
  simpl. destruct (runnable (status (threads k u))); [| discriminate].
  intros H. injection H as H. rewrite H. auto.
Qed.

Lemma step_tick k k1 tr1 :
  step Tick k = Some (k1, tr1) ->
  k1 = fst (timer_interrupt k) /\ tr1 = snd (timer_interrupt k).
Proof. simpl. intros H. injection H as H. rewrite H. auto. Qed.


(** *** A thread that never asks for a positive duration *)

Lemma idle_guarded t evs :
  (forall m, In (Sleep t m) evs -> m <= 0) ->
  forall k, guarded (idle t) evs k = true.
Proof.
  induction evs as [| e evs IH]; intros H k; simpl; [reflexivity |].
  apply andb_true_intro. split.
  - destruct e as [u m |]; simpl; [| reflexivity].
    destruct (Nat.eqb_spec u t) as [-> | _]; simpl; [| reflexivity].
    apply Z.leb_le. apply H. now left.
  - destruct (step e k) as [[k1 tr1] |]; [| reflexivity].
    apply IH. intros m Hm. apply H. now right.
Qed.

Lemma awake_step t e k tr k1 tr1 :
  awake t k tr -> idle t e k = true -> step e k = Some (k1, tr1) ->
  awake t k1 (tr ++ tr1).
Proof.
  intros (Hn & Hr & Hb) Hidle Hs. destruct e as [u m |].
  - apply step_sleep in Hs. destruct Hs as (_ & -> & ->).
    simpl in Hidle. unfold timer_sleep.
    destruct (Z.leb_spec m 0) as [Hm | Hm]; simpl.
    + rewrite app_nil_r. repeat split; assumption.
    + rewrite orb_false_r in Hidle. apply negb_true_iff in Hidle.
      apply Nat.eqb_neq in Hidle.
      assert (Hne : t <> u) by congruence.
      repeat split.
      * intros H. apply (Permutation_in _ (insert_perm _ _ _)) in H.
        destruct H as [H | H]; [congruence | contradiction].
      * cbn [threads fst]. unfold thread_block.
        rewrite (update_other _ u _ t Hne).
        unfold set_wakeup_tick. rewrite (update_other _ u _ t Hne). exact Hr.
      * intros start m' w H. apply in_app_or in H.
        destruct H as [H | [H | []]]; [now apply Hb in H | congruence].
  - apply step_tick in Hs. destruct Hs as (-> & ->).
    destruct (timer_interrupt_untouched k t Hn) as [Hn' Ht'].
    repeat split.
    + exact Hn'.
    + now rewrite Ht'.
    + intros start m w H. apply in_app_or in H.
      destruct H as [H | H]; [now apply Hb in H |].
      now apply timer_interrupt_no_block in H.
Qed.

(** C4: for every duration n <= 0, [timer_sleep] returns at once and
    changes nothing: the caller is not put on the sleeping list, the
    cache keeps its value and the caller keeps its status.  A thread that
    only makes such requests is never on the sleeping list, never parks
    itself and stays runnable throughout every run. *)
Theorem nonpositive_sleep_is_noop t n :
  n <= 0 ->
  (forall k, timer_sleep t n k = (k, [])) /\
  (forall k, step (Sleep t n) k = Some (k, []) \/ step (Sleep t n) k = None) /\
  (forall evs k tr,
      (forall m, In (Sleep t m) evs -> m <= 0) ->
      run evs = Some (k, tr) ->
      ~ In t (sleeping_list k) /\
      runnable (status (threads k t)) = true /\
      forall start m w, ~ In (Blocked t start m w) tr).
Proof.
  intros Hn.
  assert (Hnoop : forall k, timer_sleep t n k = (k, [])).
  { intros k. unfold timer_sleep.
    destruct (Z.leb_spec n 0); [reflexivity | lia]. }
  split; [exact Hnoop |]. split.
  - intros k. simpl. rewrite Hnoop.
    destruct (runnable (status (threads k t))); [now left | now right].
  - intros evs k tr Hev Hrun.
    apply (exec_preserves (idle t) (awake t))
      with (evs := evs) (k := boot) (tr := []) (tr' := tr).
    + intros e k0 tr0 k1 tr1. apply awake_step.
    + repeat split; simpl; tauto.
    + now apply idle_guarded.
    + exact Hrun.
Qed.

Lemma nonpositive_sleep_is_noop_witness :
  0 <= 0 /\
  timer_sleep 2%nat 0 (final three_sleepers_ticked)
    = (final three_sleepers_ticked, []) /\
  ~ In 7%nat (sleeping_list (final (three_sleepers ++ [Sleep 7%nat 0; Tick]))).
Proof.
  destruct (nonpositive_sleep_is_noop 7%nat 0 ltac:(lia)) as (_ & _ & Hrun).
  destruct (nonpositive_sleep_is_noop 2%nat 0 ltac:(lia)) as (Hnoop & _).
  split; [lia |]. split; [apply Hnoop |].
  refine (proj1 (Hrun (three_sleepers ++ [Sleep 7%nat 0; Tick])
                      (final (three_sleepers ++ [Sleep 7%nat 0; Tick]))
                      (history (three_sleepers ++ [Sleep 7%nat 0; Tick]))
                      _ eq_refl)).
  intros m Hm. simpl in Hm.
  repeat (destruct Hm as [Hm | Hm]; [try discriminate | ]); try contradiction.
  injection Hm as <-. lia.
Defined.

(** *** Counting *)

Section Counting.
Context {A : Type} (f : A -> bool).

Lemma hits_cons x l :
  hits f (x :: l) = ((if f x then 1 else 0) + hits f l)%nat.
Proof. unfold hits. simpl. destruct (f x); reflexivity. Qed.

Lemma hits_app a b : hits f (a ++ b) = (hits f a + hits f b)%nat.
Proof. unfold hits. now rewrite filter_app, length_app. Qed.

Lemma hits_perm a b : Permutation a b -> hits f a = hits f b.
Proof.
  induction 1 as [| x a b _ IH | x y a | a b c _ IH1 _ IH2].
  - reflexivity.
  - rewrite !hits_cons. now rewrite IH.
  - rewrite !hits_cons. lia.
  - congruence.
Qed.

Lemma hits_none l : (forall x, In x l -> f x = false) -> hits f l = 0%nat.
Proof.
  induction l as [| x l IH]; intros H; [reflexivity |].
  rewrite hits_cons, (H x (or_introl eq_refl)), IH; [reflexivity |].
  intros y Hy. apply H. now right.
Qed.

Lemma hits_some l : hits f l <> 0%nat -> exists x, In x l /\ f x = true.
Proof.
  induction l as [| x l IH]; [intros H; now contradiction H |].
  rewrite hits_cons. destruct (f x) eqn:E.
  - intros _. exists x. split; [now left | exact E].
  - simpl. intros H. destruct (IH H) as (y & Hy & Hf).
    exists y. split; [now right | exact Hf].
Qed.

Lemma hits_in x l : In x l -> f x = true -> hits f l <> 0%nat.
Proof.
  induction l as [| y l IH]; [intros [] |].
  rewrite hits_cons. intros [-> | Hin] Hf.
  - rewrite Hf. discriminate.
  - specialize (IH Hin Hf). destruct (f y); lia.
Qed.
End Counting.

Lemma hits_ext {A : Type} (f g : A -> bool) l :
  (forall x, In x l -> f x = g x) -> hits f l = hits g l.
Proof.
  induction l as [| x l IH]; intros H; [reflexivity |].
  rewrite !hits_cons, (H x (or_introl eq_refl)), IH; [reflexivity |].
  intros y Hy. apply H. now right.
Qed.

Lemma wake_count_readied t w tr :
  wake_count t w tr <> 0%nat -> exists now, In (Readied t w now) tr.
Proof.
  intros H. apply (hits_some (is_readied t w)) in H.
  destruct H as (a & Ha & Hf). destruct a as [| | | u w' now]; try discriminate.
  simpl in Hf. apply andb_prop in Hf. destruct Hf as [Hu Hw].
  apply Nat.eqb_eq in Hu. apply Z.eqb_eq in Hw. subst. now exists now.
Qed.

Lemma sleep_count_blocked t start n w tr :
  In (Blocked t start n w) tr -> sleep_count t w tr <> 0%nat.
Proof.
  intros H. apply (hits_in (is_blocked t w) _ _ H).
  simpl. now rewrite Nat.eqb_refl, Z.eqb_refl.
Qed.

Lemma pending_fresh tbl l t w : ~ In t l -> pending tbl l t w = 0%nat.
Proof.
  intros Hn. apply (hits_none (sleeps_until tbl t w)).
  intros u Hu. unfold sleeps_until.
  destruct (Nat.eqb_spec u t) as [-> | _]; [contradiction | reflexivity].
Qed.

Lemma pending_keys tbl tbl' l t w :
  (forall u, In u l -> key tbl' u = key tbl u) ->
  pending tbl' l t w = pending tbl l t w.
Proof.
  intros H. apply (hits_ext (sleeps_until tbl' t w) (sleeps_until tbl t w)).
  intros u Hu. unfold sleeps_until. now rewrite (H u Hu).
Qed.

Lemma pending_cons tbl u l t w :
  pending tbl (u :: l) t w =
  ((if sleeps_until tbl t w u then 1 else 0) + pending tbl l t w)%nat.
Proof. apply hits_cons. Qed.

Lemma wake_count_cons t w a tr :
  wake_count t w (a :: tr) =
  ((if is_readied t w a then 1 else 0) + wake_count t w tr)%nat.
Proof. apply hits_cons. Qed.

Lemma wake_count_app t w tr tr1 :
  wake_count t w (tr ++ tr1) = (wake_count t w tr + wake_count t w tr1)%nat.
Proof. apply hits_app. Qed.

Lemma sleep_count_snoc t w tr a :
  sleep_count t w (tr ++ [a]) =
  (sleep_count t w tr + if is_blocked t w a then 1 else 0)%nat.
Proof.
  unfold sleep_count. rewrite hits_app, hits_cons.
  change (hits (is_blocked t w) []) with 0%nat. lia.
Qed.

(** The scan turns pending sleeps into wake-ups, one for one. *)
Lemma wake_due_count now tbl l t w :
  pending tbl l t w =
  (wake_count t w (snd (wake_due now tbl l)) +
   pending (fst (fst (wake_due now tbl l))) (snd (fst (wake_due now tbl l))) t w)%nat.
Proof.
  revert tbl. induction l as [| t0 rest IH]; intros tbl; simpl.
  - reflexivity.
  - fold (key tbl t0).
    destruct (Z.leb_spec (key tbl t0) now) as [Hdue | Hlater].
    + specialize (IH (thread_unblock tbl t0)).
      destruct (wake_due now (thread_unblock tbl t0) rest) as [[tbl' l'] tr].
      simpl in *.
      rewrite pending_cons, !wake_count_cons.
      rewrite <- (pending_keys tbl (thread_unblock tbl t0) rest t w)
        by (intros; apply key_thread_unblock).
      rewrite IH. unfold sleeps_until. simpl (is_readied _ _ _). cbv iota. lia.
    + simpl. reflexivity.
Qed.

(** *** The bookkeeping invariant *)

Lemma accounted_boot : accounted boot [].
Proof.
  constructor; simpl; try (intros; contradiction).
  - unfold INT64_MAX. lia.
  - reflexivity.
  - intros t w. change (sleep_count t w []) with 0%nat. lia.
Qed.

Lemma accounted_timer_sleep cur n k tr :
  wf k -> accounted k tr ->
  runnable (status (threads k cur)) = true ->
  fits (Sleep cur n) k = true ->
  accounted (fst (timer_sleep cur n k)) (tr ++ snd (timer_sleep cur n k)).
Proof.
  intros Hwf Hacc Hrun Hfit.
  pose proof (wf_not_sleeping k cur Hwf Hrun) as Hfresh.
  unfold timer_sleep. destruct (Z.leb_spec n 0) as [Hn | Hn]; simpl.
  { now rewrite app_nil_r. }
  simpl in Hfit. destruct (Z.leb_spec n 0) as [Hn' | _]; [lia |].
  simpl in Hfit. apply Z.leb_le in Hfit.
  pose proof (acc_clock k tr Hacc) as Hclock.
  assert (Hw : wrap64 (ticks k + n) = ticks k + n).
  { apply wrap64_small. range. }
  rewrite Hw.
  set (w := ticks k + n).
  set (tbl1 := set_wakeup_tick (threads k) cur w).
  set (sl := list_insert_ordered (wakeup_time_less tbl1) cur (sleeping_list k)).
  assert (Hperm : Permutation sl (cur :: sleeping_list k)) by apply insert_perm.
  assert (Hkcur : key (thread_block tbl1 cur) cur = w).
  { rewrite key_thread_block. apply key_set_same. }
  assert (Hkold : forall u, In u (sleeping_list k) ->
                            key (thread_block tbl1 cur) u = key (threads k) u).
  { intros u Hu. rewrite key_thread_block. apply key_set_other.
    intros ->. contradiction. }
  assert (Hnew : forall t w', sleep_count t w' (tr ++ [Blocked cur (ticks k) n w]) =
                   (sleep_count t w' tr +
                    if Nat.eqb cur t && Z.eqb w w' then 1 else 0)%nat).
  { intros t w'. apply sleep_count_snoc. }
  constructor; simpl.
  - exact Hclock.
  - intros t Ht. apply (Permutation_in _ Hperm) in Ht.
    destruct Ht as [<- | Ht].
    + rewrite Hkcur. unfold w. lia.
    + rewrite (Hkold t Ht). now apply (acc_later k tr Hacc).
  - intros t w' now Hin. apply in_app_or in Hin.
    destruct Hin as [Hin | [Hin | []]]; [| discriminate].
    now apply (acc_woken k tr Hacc) in Hin.
  - intros t start m w' Hin. apply in_app_or in Hin.
    destruct Hin as [Hin | [Hin | []]].
    + now apply (acc_slept k tr Hacc) in Hin.
    + injection Hin as <- <- <- <-. unfold w. lia.
  - intros t w'. rewrite Hnew, wake_count_app.
    change (wake_count t w' [Blocked cur (ticks k) n w]) with 0%nat.
    unfold pending at 1. rewrite (hits_perm _ _ _ Hperm).
    fold (pending (thread_block tbl1 cur) (cur :: sleeping_list k) t w').
    rewrite pending_cons, (pending_keys (threads k) _ _ t w' Hkold).
    unfold sleeps_until at 1. rewrite Hkcur.
    rewrite (acc_count k tr Hacc t w'). lia.
  - intros t w'. rewrite Hnew.
    pose proof (acc_once k tr Hacc t w') as Ho.
    destruct (Nat.eqb_spec cur t) as [<- | _]; simpl; [| lia].
    destruct (Z.eqb_spec w w') as [<- | _]; [| lia].
    assert (Hz : sleep_count cur w tr = 0%nat); [| lia].
    rewrite (acc_count k tr Hacc cur w).
    rewrite (pending_fresh _ _ _ _ Hfresh).
    destruct (Nat.eq_dec (wake_count cur w tr) 0) as [-> | Hpos]; [reflexivity |].
    apply wake_count_readied in Hpos. destruct Hpos as (now & Hin).
    apply (acc_woken k tr Hacc) in Hin. unfold w in Hin. lia.
Qed.

Lemma sleep_count_app t w tr tr1 :
  (forall start n, ~ In (Blocked t start n w) tr1) ->
  sleep_count t w (tr ++ tr1) = sleep_count t w tr.
Proof.
  intros Hnb. unfold sleep_count. rewrite hits_app.
  destruct (Nat.eq_dec (hits (is_blocked t w) tr1) 0) as [-> | Hpos].
  - lia.
  - apply hits_some in Hpos. destruct Hpos as (a & Ha & Hf).
    destruct a as [u start n w' | | |]; try discriminate.
    simpl in Hf. apply andb_prop in Hf. destruct Hf as [Hu Hw'].
    apply Nat.eqb_eq in Hu. apply Z.eqb_eq in Hw'. subst.
    now apply Hnb in Ha.
Qed.

(** The scan at a clock value [c] the kernel has advanced to. *)
Lemma accounted_scan k c tr :
  wf k -> accounted k tr -> ticks k <= c <= INT64_MAX ->
  let k1 := mkKernel c (next_wakeup_tick k) (sleeping_list k) (threads k) in
  accounted (fst (check_sleeping_threads k1))
            (tr ++ snd (check_sleeping_threads k1)).
Proof.
  intros Hwf Hacc Hc k1.
  assert (Hwf1 : wf k1) by (destruct Hwf; constructor; assumption).
  pose proof (wf_check_sleeping_threads k1 Hwf1) as Hwf'.
  pose proof (wf_sorted _ Hwf') as Hsorted. revert Hwf' Hsorted.
  pose proof (acc_clock k tr Hacc) as Hclock.
  unfold check_sleeping_threads. simpl.
  destruct (wake_due_split c (threads k) (sleeping_list k))
    as (woken & Hl & _ & Hk & _ & Hhd).
  pose proof (wake_due_trace c (threads k) (sleeping_list k)) as Htr.
  pose proof (wake_due_count c (threads k) (sleeping_list k)) as Hcnt.
  destruct (wake_due c (threads k) (sleeping_list k)) as [[tbl' l'] trw].
  simpl in *. intros _ Hsorted. unfold wake_ticks in Hsorted. simpl in Hsorted.
  assert (Hnb : forall t w start n, ~ In (Blocked t start n w) (Scan c :: trw)).
  { intros t w start n [H | H]; [discriminate |].
    destruct (Htr _ H) as [(u & Hu) | (u & Hu & _)]; discriminate. }
  constructor; simpl.
  - lia.
  - intros t Ht. destruct l' as [| h rest]; [contradiction |].
    simpl in Hsorted. apply StronglySorted_inv in Hsorted.
    destruct Hsorted as [_ Hall]. rewrite <- (Hk h) in Hhd.
    destruct Ht as [<- | Ht]; [exact Hhd |].
    rewrite Forall_forall in Hall.
    specialize (Hall (key tbl' t) (in_map (key tbl') rest t Ht)). lia.
  - intros t w now Hin. apply in_app_or in Hin.
    destruct Hin as [Hin | [Hin | Hin]]; [| discriminate |].
    + apply (acc_woken k tr Hacc) in Hin. lia.
    + destruct (Htr _ Hin) as [(u & Hu) | (u & Hu & _ & Hle)]; [discriminate |].
      injection Hu as -> -> ->. lia.
  - intros t start n w Hin. apply in_app_or in Hin.
    destruct Hin as [Hin | Hin]; [| now apply Hnb in Hin].
    apply (acc_slept k tr Hacc) in Hin. lia.
  - intros t w. rewrite sleep_count_app by (intros; apply Hnb).
    rewrite (acc_count k tr Hacc t w), (Hcnt t w).
    rewrite wake_count_app, wake_count_cons. simpl (is_readied _ _ _).
    cbv iota. lia.
  - intros t w. rewrite sleep_count_app by (intros; apply Hnb).
    apply (acc_once k tr Hacc).
Qed.

Lemma accounted_timer_interrupt k tr :
  wf k -> accounted k tr -> fits Tick k = true ->
  accounted (fst (timer_interrupt k)) (tr ++ snd (timer_interrupt k)).
Proof.
  intros Hwf Hacc Hfit. simpl in Hfit. apply Z.ltb_lt in Hfit.
  pose proof (acc_clock k tr Hacc) as Hclock.
  assert (Hw : wrap64 (ticks k + 1) = ticks k + 1).
  { apply wrap64_small. range. }
  unfold timer_interrupt, thread_tick. rewrite Hw.
  set (k1 := mkKernel (ticks k + 1) (next_wakeup_tick k)
                      (sleeping_list k) (threads k)).
  destruct (Z.geb_spec (ticks k1) (next_wakeup_tick k1)) as [Hge | Hlt].
  - apply (accounted_scan k (ticks k + 1) tr Hwf Hacc). lia.
  - simpl. rewrite app_nil_r. simpl in Hlt.
    constructor; simpl.
    + lia.
    + intros t Ht.
      assert (Hmin : next_wakeup_tick k <= key (threads k) t).
      { rewrite (wf_cache k Hwf). apply min_tick_le.
        unfold wake_ticks. now apply in_map. }
      lia.
    + intros t w now Hin. apply (acc_woken k tr Hacc) in Hin. lia.
    + intros t start n w Hin. apply (acc_slept k tr Hacc) in Hin. lia.
    + apply (acc_count k tr Hacc).
    + apply (acc_once k tr Hacc).
Qed.

Lemma accounted_step e k tr k1 tr1 :
  wf k /\ accounted k tr -> fits e k = true -> step e k = Some (k1, tr1) ->
  wf k1 /\ accounted k1 (tr ++ tr1).
Proof.
  intros [Hwf Hacc] Hfit Hs. split; [eapply wf_step; eassumption |].
  destruct e as [t n |].
  - apply step_sleep in Hs. destruct Hs as (Hrun & -> & ->).
    now apply accounted_timer_sleep.
  - apply step_tick in Hs. destruct Hs as (-> & ->).
    now apply accounted_timer_interrupt.
Qed.

Lemma run_accounted evs k tr :
  run evs = Some (k, tr) -> no_overflow evs = true -> wf k /\ accounted k tr.
Proof.
  intros Hrun Hno.
  apply (exec_preserves fits (fun k tr => wf k /\ accounted k tr))
    with (evs := evs) (k := boot) (tr := []) (tr' := tr).
  - intros e k0 tr0 k1 tr1. apply accounted_step.
  - split; [apply wf_boot | apply accounted_boot].
  - exact Hno.
  - exact Hrun.
Qed.

(** In a run whose tick arithmetic stays inside [int64_t] a sleep is known
    by its thread and its wake-up time: a sleep until a tick the clock has
    reached was entered once and ended by the scan once. *)
Lemma keyed_sleep_woken_once evs k tr :
  run evs = Some (k, tr) -> no_overflow evs = true ->
  forall t start n w,
    In (Blocked t start n w) tr -> w <= ticks k ->
    wake_count t w tr = 1%nat /\ sleep_count t w tr = 1%nat.
Proof.
  intros Hrun Hno t start n w Hin Hdue.
  destruct (run_accounted evs k tr Hrun Hno) as [Hwf Hacc].
  pose proof (sleep_count_blocked _ _ _ _ _ Hin) as Hpos.
  pose proof (acc_once k tr Hacc t w) as Honce.
  pose proof (acc_count k tr Hacc t w) as Hcount.
  assert (Hp : pending (threads k) (sleeping_list k) t w = 0%nat).
  { apply (hits_none (sleeps_until (threads k) t w)).
    intros u Hu. unfold sleeps_until.
    destruct (Nat.eqb_spec u t) as [-> | _]; [| reflexivity].
    destruct (Z.eqb_spec (key (threads k) t) w) as [He | _]; [| reflexivity].
    pose proof (acc_later k tr Hacc t Hu). lia. }
  lia.
Qed.


End TimerSpec.

(** ** Further laws of the fixed-point helpers *)
Module FixedPointLaws.
Import Machine MachineFacts FixedPoint FixedPointSpec.

(** *** Arithmetic modulo 2^32 *)

Lemma wrap32_mod a : wrap32 a mod 4294967296 = a mod 4294967296.
Proof.
  unfold wrap32, wrap.
  change (2 ^ (32 - 1)) with 2147483648. change (2 ^ 32) with 4294967296.
  rewrite Zminus_mod_idemp_l. f_equal. ring.
Qed.

Lemma wrap32_congr a b :
  a mod 4294967296 = b mod 4294967296 -> wrap32 a = wrap32 b.
Proof.
  intros H. unfold wrap32, wrap.
  change (2 ^ (32 - 1)) with 2147483648. change (2 ^ 32) with 4294967296.
  rewrite <- (Zplus_mod_idemp_l a), H, Zplus_mod_idemp_l. reflexivity.
Qed.

Lemma wrap32_add_l a b : wrap32 (wrap32 a + b) = wrap32 (a + b).
Proof.
  apply wrap32_congr.
  now rewrite <- Zplus_mod_idemp_l, wrap32_mod, Zplus_mod_idemp_l.
Qed.

Lemma wrap32_add_r a b : wrap32 (a + wrap32 b) = wrap32 (a + b).
Proof.
  apply wrap32_congr.
  now rewrite <- Zplus_mod_idemp_r, wrap32_mod, Zplus_mod_idemp_r.
Qed.

Lemma wrap32_sub_l a b : wrap32 (wrap32 a - b) = wrap32 (a - b).
Proof.
  apply wrap32_congr.
  now rewrite <- Zminus_mod_idemp_l, wrap32_mod, Zminus_mod_idemp_l.
Qed.

Lemma wrap32_sub_r a b : wrap32 (a - wrap32 b) = wrap32 (a - b).
Proof.
  apply wrap32_congr.
  now rewrite <- Zminus_mod_idemp_r, wrap32_mod, Zminus_mod_idemp_r.
Qed.

(** *** Truncating division *)

Lemma quot_spec a b :
  0 < b ->
  a = b * Z.quot a b + Z.rem a b /\ Z.abs (Z.rem a b) < b /\
  (0 <= a -> 0 <= Z.rem a b) /\ (a <= 0 -> Z.rem a b <= 0).
Proof.
  intros Hb. split; [apply Z.quot_rem' |]. split.
  - pose proof (Z.rem_bound_abs a b ltac:(lia)). lia.
  - split; intros H; [apply Z.rem_nonneg | apply Z.rem_nonpos]; lia.
Qed.

Ltac quot_facts a b := pose proof (quot_spec a b ltac:(lia)).

(** *** Sums and differences *)

(** X1: on a 32-bit value, [fp_sub] undoes [fp_add] of the same operand
    and [fp_add] undoes [fp_sub], whatever the operand and even when the
    intermediate result wraps around. *)
Theorem fp_add_sub_cancel x y :
  in_int32 x ->
  fp_sub (fp_add x y) y = x /\ fp_add (fp_sub x y) y = x.
Proof.
  intros Hx. unfold fp_add, fp_sub. split.
  - rewrite wrap32_sub_l. replace (x + y - y) with x by ring.
    now apply wrap32_small.
  - rewrite wrap32_add_l. replace (x - y + y) with x by ring.
    now apply wrap32_small.
Qed.

Lemma fp_add_sub_cancel_witness :
  in_int32 INT_MAX /\
  fp_sub (fp_add INT_MAX 16384) 16384 = INT_MAX /\
  fp_add (fp_sub INT_MAX 16384) 16384 = INT_MAX.
Proof.
  assert (H : in_int32 INT_MAX) by range.
  split; [exact H | exact (fp_add_sub_cancel INT_MAX 16384 H)].
Defined.

(** X2: on a 32-bit value, [fp_sub_int] undoes [fp_add_int] of the same
    integer and [fp_add_int] undoes [fp_sub_int], for every integer, also
    when the scaled integer or the sum wraps around. *)
Theorem fp_add_int_sub_int_cancel x n :
  in_int32 x ->
  fp_sub_int (fp_add_int x n) n = x /\ fp_add_int (fp_sub_int x n) n = x.
Proof.
  intros Hx. unfold fp_add_int, fp_sub_int. split.
  - rewrite wrap32_sub_l.
    replace (x + wrap32 (n * FP_F) - wrap32 (n * FP_F)) with x by ring.
    now apply wrap32_small.
  - rewrite wrap32_add_l.
    replace (x - wrap32 (n * FP_F) + wrap32 (n * FP_F)) with x by ring.
    now apply wrap32_small.
Qed.

Lemma fp_add_int_sub_int_cancel_witness :
  in_int32 (-24576) /\
  fp_sub_int (fp_add_int (-24576) 200000) 200000 = -24576 /\
  fp_add_int (fp_sub_int (-24576) 200000) 200000 = -24576.
Proof.
  assert (H : in_int32 (-24576)) by range.
  split; [exact H | exact (fp_add_int_sub_int_cancel (-24576) 200000 H)].
Defined.

(** X3: the conversion from integers turns integer sums and differences
    into fixed-point ones, through all four operations and for all
    integers: both sides wrap around in the same way. *)
Theorem fp_int_to_fp_additive a b :
  fp_add (fp_int_to_fp a) (fp_int_to_fp b) = fp_int_to_fp (a + b) /\
  fp_sub (fp_int_to_fp a) (fp_int_to_fp b) = fp_int_to_fp (a - b) /\
  fp_add_int (fp_int_to_fp a) b = fp_int_to_fp (a + b) /\
  fp_sub_int (fp_int_to_fp a) b = fp_int_to_fp (a - b).
Proof.
  unfold fp_add, fp_sub, fp_add_int, fp_sub_int, fp_int_to_fp.
  rewrite !wrap32_add_r, !wrap32_add_l, !wrap32_sub_r, !wrap32_sub_l.
  repeat split; f_equal; ring.
Qed.

(** *** Conversions back to integers *)

(** X4: [fp_to_int_zero] truncates toward zero: the magnitude of the
    result is the integer part of the magnitude of the value, and the
    result never has the opposite sign. *)
Theorem fp_to_int_zero_truncates x :
  Z.abs (fp_to_int_zero x) * FP_F <= Z.abs x
    < (Z.abs (fp_to_int_zero x) + 1) * FP_F /\
  0 <= fp_to_int_zero x * x.
Proof.
  unfold fp_to_int_zero. rewrite FP_F_val.
  quot_facts x 16384. split; [lia |].
  destruct (Z.le_gt_cases 0 x);
    [apply Z.mul_nonneg_nonneg | apply Z.mul_nonpos_nonpos]; lia.
Qed.

(** X5: when the rounding offset does not leave the 32-bit range,
    [fp_to_int_nearest] returns an integer at most half a unit away from
    the value. *)
Theorem fp_to_int_nearest_is_nearest x :
  INT_MIN + 8192 <= x <= INT_MAX - 8192 ->
  2 * Z.abs (x - fp_to_int_nearest x * FP_F) <= FP_F.
Proof.
  intros Hx. unfold fp_to_int_nearest. rewrite fp_half, FP_F_val.
  destruct (Z.geb_spec x 0) as [Hpos | Hneg].
  - rewrite wrap32_small by range. quot_facts (x + 8192) 16384. lia.
  - rewrite wrap32_small by range. quot_facts (x - 8192) 16384. lia.
Qed.

Lemma fp_to_int_nearest_is_nearest_witness :
  INT_MIN + 8192 <= -40000 <= INT_MAX - 8192 /\
  fp_to_int_nearest (-40000) = -2 /\
  2 * Z.abs (-40000 - fp_to_int_nearest (-40000) * FP_F) <= FP_F.
Proof.
  assert (H : INT_MIN + 8192 <= -40000 <= INT_MAX - 8192) by range.
  split; [exact H |]. split; [reflexivity |].
  exact (fp_to_int_nearest_is_nearest (-40000) H).
Defined.

(** X6: [fp_to_int_nearest] treats both signs alike: negating the value
    negates the result, as long as the rounding offset stays inside the
    32-bit range. *)
Theorem fp_to_int_nearest_odd x :
  - (INT_MAX - 8192) <= x <= INT_MAX - 8192 ->
  fp_to_int_nearest (- x) = - fp_to_int_nearest x.
Proof.
  intros Hx. unfold fp_to_int_nearest. rewrite fp_half, FP_F_val.
  destruct (Z.geb_spec x 0) as [Hpos | Hneg];
    destruct (Z.geb_spec (- x) 0) as [Hpos' | Hneg'];
    rewrite !wrap32_small by range.
  - assert (x = 0) by lia. subst x. reflexivity.
  - quot_facts (- x - 8192) 16384. quot_facts (x + 8192) 16384. lia.
  - quot_facts (- x + 8192) 16384. quot_facts (x - 8192) 16384. lia.
  - lia.
Qed.

Lemma fp_to_int_nearest_odd_witness :
  - (INT_MAX - 8192) <= 40000 <= INT_MAX - 8192 /\
  fp_to_int_nearest (- 40000) = - fp_to_int_nearest 40000.
Proof.
  assert (H : - (INT_MAX - 8192) <= 40000 <= INT_MAX - 8192) by range.
  split; [exact H | exact (fp_to_int_nearest_odd 40000 H)].
Defined.

(** X7: rounding to nearest returns every integer from -131071 to 131071
    unchanged after its conversion to fixed point. *)
Theorem fp_nearest_round_trip n :
  -131071 <= n <= 131071 -> fp_to_int_nearest (fp_int_to_fp n) = n.
Proof.
  intros Hn. rewrite fp_int_to_fp_exact by range.
  unfold fp_to_int_nearest. rewrite fp_half, FP_F_val.
  destruct (Z.geb_spec (n * 16384) 0) as [Hpos | Hneg];
    rewrite wrap32_small by range.
  - quot_facts (n * 16384 + 8192) 16384. lia.
  - quot_facts (n * 16384 - 8192) 16384. lia.
Qed.

Lemma fp_nearest_round_trip_witness :
  -131071 <= -131071 <= 131071 /\
  fp_to_int_nearest (fp_int_to_fp (-131071)) = -131071.
Proof.
  assert (H : -131071 <= -131071 <= 131071) by lia.
  split; [exact H | exact (fp_nearest_round_trip (-131071) H)].
Defined.

(** *** Products and quotients *)

Lemma scaled_fits x : in_int32 x -> in_int64 (x * 16384).
Proof. intros H. range. Qed.

Lemma product_fits x y : in_int32 x -> in_int32 y -> in_int64 (x * y).
Proof.
  intros Hx Hy.
  unfold in_int32, in_int64, INT_MIN, INT_MAX, INT64_MIN, INT64_MAX in *. nia.
Qed.

(** X8: the 64-bit intermediate of [fp_mul] never overflows for 32-bit
    operands, so whenever the truncated quotient of the product by 2^14
    fits 32 bits, [fp_mul] returns exactly that quotient, less than one
    unit in the last place away from the exact product. *)
Theorem fp_mul_exact x y :
  in_int32 x -> in_int32 y -> in_int32 (Z.quot (x * y) FP_F) ->
  fp_mul x y = Z.quot (x * y) FP_F /\
  Z.abs (x * y - fp_mul x y * FP_F) < FP_F.
Proof.
  intros Hx Hy Hq. unfold fp_mul.
  rewrite (wrap64_small _ (product_fits x y Hx Hy)).
  rewrite (wrap32_small _ Hq). split; [reflexivity |].
  rewrite FP_F_val. quot_facts (x * y) 16384. lia.
Qed.

Lemma fp_mul_exact_witness :
  in_int32 24576 /\ in_int32 (-40960) /\
  in_int32 (Z.quot (24576 * -40960) FP_F) /\
  fp_mul 24576 (-40960) = -61440.
Proof.
  assert (Hx : in_int32 24576) by range.
  assert (Hy : in_int32 (-40960)) by range.
  assert (Hq : in_int32 (Z.quot (24576 * -40960) FP_F))
    by (vm_compute; split; discriminate).
  split; [exact Hx |]. split; [exact Hy |]. split; [exact Hq |].
  exact (proj1 (fp_mul_exact 24576 (-40960) Hx Hy Hq)).
Defined.

Lemma sdiv64_scaled x y :
  in_int32 x -> y <> 0 ->
  sdiv64 (wrap64 (x * FP_F)) y = Some (Z.quot (x * FP_F) y).
Proof.
  intros Hx Hy. rewrite FP_F_val, (wrap64_small _ (scaled_fits x Hx)).
  unfold sdiv64, sdiv.
  destruct (Z.eqb_spec y 0) as [E | _]; [contradiction |].
  destruct (Z.eqb_spec (x * 16384) INT64_MIN) as [E | _]; [| reflexivity].
  exfalso. range.
Qed.

(** X9: for 32-bit operands and a divisor that is not zero, [fp_div]
    returns a result, and whenever the truncated quotient of the scaled
    dividend fits 32 bits it returns exactly that quotient: the remainder
    left over is smaller than the divisor. *)
Theorem fp_div_exact x y :
  in_int32 x -> in_int32 y -> y <> 0 -> in_int32 (Z.quot (x * FP_F) y) ->
  fp_div x y = Some (Z.quot (x * FP_F) y) /\
  Z.abs (x * FP_F - Z.quot (x * FP_F) y * y) < Z.abs y.
Proof.
  intros Hx Hy Hy0 Hq. unfold fp_div.
  rewrite (sdiv64_scaled x y Hx Hy0). simpl.
  rewrite (wrap32_small _ Hq). split; [reflexivity |].
  pose proof (Z.quot_rem' (x * FP_F) y) as E.
  pose proof (Z.rem_bound_abs (x * FP_F) y Hy0) as B. lia.
Qed.

Lemma fp_div_exact_witness :
  in_int32 (-16384) /\ in_int32 49152 /\ 49152 <> 0 /\
  in_int32 (Z.quot (-16384 * FP_F) 49152) /\
  fp_div (-16384) 49152 = Some (-5461).
Proof.
  assert (Hx : in_int32 (-16384)) by range.
  assert (Hy : in_int32 49152) by range.
  assert (Hy0 : 49152 <> 0) by lia.
  assert (Hq : in_int32 (Z.quot (-16384 * FP_F) 49152))
    by (vm_compute; split; discriminate).
  split; [exact Hx |]. split; [exact Hy |]. split; [exact Hy0 |].
  split; [exact Hq |].
  exact (proj1 (fp_div_exact (-16384) 49152 Hx Hy Hy0 Hq)).
Defined.

(** X10: dividing a 32-bit value that is not zero by itself gives the
    fixed-point one, [FP_F]. *)
Theorem fp_div_self x :
  in_int32 x -> x <> 0 -> fp_div x x = Some FP_F.
Proof.
  intros Hx Hx0. unfold fp_div. rewrite (sdiv64_scaled x x Hx Hx0).
  simpl. f_equal. rewrite (Z.mul_comm x FP_F), Z.quot_mul by exact Hx0.
  reflexivity.
Qed.

Lemma fp_div_self_witness :
  in_int32 INT_MIN /\ INT_MIN <> 0 /\ fp_div INT_MIN INT_MIN = Some 16384.
Proof.
  assert (Hx : in_int32 INT_MIN) by range.
  assert (Hx0 : INT_MIN <> 0) by (unfold INT_MIN; lia).
  split; [exact Hx |]. split; [exact Hx0 |].
  exact (fp_div_self INT_MIN Hx Hx0).
Defined.

Lemma quot_fits x n :
  in_int32 x -> n <> 0 -> ~ (x = INT_MIN /\ n = -1) -> in_int32 (Z.quot x n).
Proof.
  intros Hx Hn Hnot.
  assert (Habs : Z.abs (Z.quot x n) = Z.abs x / Z.abs n).
  { rewrite <- Z.quot_abs by exact Hn. apply Z.quot_div_nonneg; lia. }
  destruct (Z.eq_dec n 1) as [-> | Hn1].
  { now rewrite Z.quot_1_r. }
  destruct (Z.eq_dec n (-1)) as [-> | Hn2].
  { change (-1) with (- (1)). rewrite Z.quot_opp_r, Z.quot_1_r by lia.
    assert (x <> INT_MIN) by tauto. range. }
  assert (Hle : Z.abs x / Z.abs n <= 1073741824).
  { apply Z.div_le_upper_bound; [lia |]. range. }
  pose proof (Z.div_pos (Z.abs x) (Z.abs n) ltac:(lia) ltac:(lia)).
  range.
Qed.

(** X11: for a 32-bit x and an integer n from -131072 to 131071 that is
    not zero, dividing by the plain integer is dividing by its fixed-point
    conversion through the widened path, except for INT_MIN / -1, where
    only the widened path returns a result. *)
Theorem fp_div_int_refines_fp_div x n :
  in_int32 x -> -131072 <= n <= 131071 -> n <> 0 ->
  (~ (x = INT_MIN /\ n = -1) -> fp_div x (fp_int_to_fp n) = fp_div_int x n) /\
  fp_div INT_MIN (fp_int_to_fp (-1)) = Some INT_MIN /\
  fp_div_int INT_MIN (-1) = None.
Proof.
  intros Hx Hn Hn0. split; [| split; reflexivity].
  intros Hnot. rewrite fp_int_to_fp_exact by range.
  unfold fp_div. rewrite sdiv64_scaled by (exact Hx || lia).
  rewrite FP_F_val, Z.quot_mul_cancel_r by lia. simpl.
  rewrite (wrap32_small _ (quot_fits x n Hx Hn0 Hnot)).
  unfold fp_div_int, sdiv32, sdiv.
  destruct (Z.eqb_spec n 0) as [E | _]; [contradiction |].
  destruct (Z.eqb_spec x INT_MIN) as [Ex | _];
    destruct (Z.eqb_spec n (-1)) as [En | _]; simpl; try reflexivity.
  tauto.
Qed.

Lemma fp_div_int_refines_fp_div_witness :
  in_int32 (-40960) /\ -131072 <= 3 <= 131071 /\ 3 <> 0 /\
  fp_div (-40960) (fp_int_to_fp 3) = fp_div_int (-40960) 3.
Proof.
  assert (Hx : in_int32 (-40960)) by range.
  assert (Hn : -131072 <= 3 <= 131071) by lia.
  assert (Hn0 : 3 <> 0) by lia.
  split; [exact Hx |]. split; [exact Hn |]. split; [exact Hn0 |].
  apply (proj1 (fp_div_int_refines_fp_div (-40960) 3 Hx Hn Hn0)).
  unfold INT_MIN. intros [H _]. discriminate H.
Defined.

End FixedPointLaws.

(** ** Further laws of the alarm clock *)
Module TimerLaws.
Import Machine MachineFacts Timer TimerSpec.

(** *** Arithmetic modulo 2^64 *)

Lemma wrap64_mod a :
  wrap64 a mod 18446744073709551616 = a mod 18446744073709551616.
Proof.
  unfold wrap64, wrap.
  change (2 ^ (64 - 1)) with 9223372036854775808.
  change (2 ^ 64) with 18446744073709551616.
  rewrite Zminus_mod_idemp_l. f_equal. ring.
Qed.

Lemma wrap64_congr a b :
  a mod 18446744073709551616 = b mod 18446744073709551616 ->
  wrap64 a = wrap64 b.
Proof.
  intros H. unfold wrap64, wrap.
  change (2 ^ (64 - 1)) with 9223372036854775808.
  change (2 ^ 64) with 18446744073709551616.
  rewrite <- (Zplus_mod_idemp_l a), H, Zplus_mod_idemp_l. reflexivity.
Qed.

Lemma wrap64_add_l a b : wrap64 (wrap64 a + b) = wrap64 (a + b).
Proof.
  apply wrap64_congr.
  now rewrite <- Zplus_mod_idemp_l, wrap64_mod, Zplus_mod_idemp_l.
Qed.

(** *** The clock *)

Lemma ticks_check_sleeping_threads k :
  ticks (fst (check_sleeping_threads k)) = ticks k.
Proof.
  unfold check_sleeping_threads.
  destruct (wake_due (ticks k) (threads k) (sleeping_list k)) as [[tbl' l'] tr].
  reflexivity.
Qed.

Lemma ticks_timer_interrupt k :
  ticks (fst (timer_interrupt k)) = wrap64 (ticks k + 1).
Proof.
  unfold timer_interrupt, thread_tick.
  set (k1 := mkKernel (wrap64 (ticks k + 1)) (next_wakeup_tick k)
                      (sleeping_list k) (threads k)).
  destruct (ticks k1 >=? next_wakeup_tick k1).
  - apply (ticks_check_sleeping_threads k1).
  - reflexivity.
Qed.

Lemma ticks_timer_sleep cur n k : ticks (fst (timer_sleep cur n k)) = ticks k.
Proof. unfold timer_sleep. destruct (n <=? 0); reflexivity. Qed.

Lemma tick_count_cons e evs :
  tick_count (e :: evs) = (if is_tick e then 1 else 0) + tick_count evs.
Proof.
  unfold tick_count. rewrite hits_cons, Nat2Z.inj_add.
  destruct (is_tick e); reflexivity.
Qed.

Lemma exec_ticks evs k0 tr0 k tr :
  exec evs (k0, tr0) = Some (k, tr) ->
  wrap64 (ticks k) = wrap64 (ticks k0 + tick_count evs).
Proof.
  revert k0 tr0. induction evs as [| e evs IH]; simpl; intros k0 tr0 Hex.
  - injection Hex as <- _. f_equal. unfold tick_count. simpl. ring.
  - destruct (step e k0) as [[k1 tr1] |] eqn:Hs; [| discriminate].
    rewrite (IH _ _ Hex), tick_count_cons. destruct e as [t n |].
    + apply step_sleep in Hs. destruct Hs as (_ & -> & _).
      rewrite ticks_timer_sleep. reflexivity.
    + apply step_tick in Hs. destruct Hs as (-> & _).
      rewrite ticks_timer_interrupt, wrap64_add_l. simpl is_tick. cbv iota.
      f_equal. ring.
Qed.

Lemma run_ticks_range evs k tr : run evs = Some (k, tr) -> in_int64 (ticks k).
Proof.
  intros Hrun.
  apply (exec_preserves (fun _ _ => true) (fun k _ => in_int64 (ticks k)))
    with (evs := evs) (k := boot) (tr := []) (tr' := tr).
  - intros e k0 tr0 k1 tr1 Hr _ Hs. destruct e as [t n |].
    + apply step_sleep in Hs. destruct Hs as (_ & -> & _).
      now rewrite ticks_timer_sleep.
    + apply step_tick in Hs. destruct Hs as (-> & _).
      rewrite ticks_timer_interrupt. apply wrap64_range.
  - simpl. range.
  - apply guarded_true.
  - exact Hrun.
Qed.

(** X12: the clock counts the timer interrupts.  After every run [ticks]
    is the number of interrupts of the run reduced to 64 bits, so it is
    that number itself as long as the number does not exceed [INT64_MAX];
    sleep requests never move the clock. *)
Theorem clock_counts_interrupts evs k tr :
  run evs = Some (k, tr) ->
  ticks k = wrap64 (tick_count evs) /\
  (tick_count evs <= INT64_MAX -> ticks k = tick_count evs).
Proof.
  intros Hrun.
  assert (Ht : ticks k = wrap64 (tick_count evs)).
  { rewrite <- (wrap64_small _ (run_ticks_range evs k tr Hrun)).
    apply (exec_ticks evs boot [] k tr Hrun). }
  split; [exact Ht |].
  intros Hle. rewrite Ht. apply wrap64_small.
  unfold tick_count in *. range.
Qed.

Lemma clock_counts_interrupts_witness :
  run (three_sleepers ++ five_ticks) =
    Some (final (three_sleepers ++ five_ticks),
          history (three_sleepers ++ five_ticks)) /\
  tick_count (three_sleepers ++ five_ticks) = 5 /\
  ticks (final (three_sleepers ++ five_ticks)) = 5.
Proof.
  assert (Hrun : run (three_sleepers ++ five_ticks) =
                 Some (final (three_sleepers ++ five_ticks),
                       history (three_sleepers ++ five_ticks))) by reflexivity.
  split; [exact Hrun |]. split; [reflexivity |].
  apply (proj2 (clock_counts_interrupts _ _ _ Hrun)).
  vm_compute. discriminate.
Defined.

(** *** The scan, once more *)

(** The scan cuts the list in two: the threads it made ready, all due,
    and the rest, which starts with a thread that is not due. *)
Lemma wake_due_partition now tbl l :
  exists woken,
    l = woken ++ snd (fst (wake_due now tbl l)) /\
    (forall u, In u woken ->
       key tbl u <= now /\
       status (fst (fst (wake_due now tbl l)) u) = THREAD_READY) /\
    (forall u, key (fst (fst (wake_due now tbl l))) u = key tbl u) /\
    (forall u, ~ In u woken -> fst (fst (wake_due now tbl l)) u = tbl u) /\
    match snd (fst (wake_due now tbl l)) with
    | [] => True
    | t :: _ => now < key tbl t
    end.
Proof.
  revert tbl. induction l as [| t rest IH]; intros tbl; simpl.
  - exists []. simpl. split; [reflexivity |]. split; [intros u [] |].
    split; [reflexivity |]. split; [reflexivity | exact I].
  - fold (key tbl t).
    destruct (Z.leb_spec (key tbl t) now) as [Hdue | Hlater].
    + specialize (IH (thread_unblock tbl t)).
      destruct (wake_due now (thread_unblock tbl t) rest) as [[tbl' l'] tr].
      simpl in *. destruct IH as (woken & Hl & Hw & Hk & Hs & Hh).
      exists (t :: woken). simpl. split; [now f_equal |]. split; [| split; [| split]].
      * intros u [<- | Hu].
        -- split; [exact Hdue |].
           destruct (in_dec Nat.eq_dec t woken) as [Hin | Hout].
           ++ apply (Hw t Hin).
           ++ rewrite (Hs t Hout). unfold thread_unblock.
              now rewrite update_same.
        -- destruct (Hw u Hu) as [Hku Hsu].
           rewrite key_thread_unblock in Hku. now split.
      * intros u. rewrite Hk. apply key_thread_unblock.
      * intros u Hu. rewrite Hs by tauto.
        unfold thread_unblock. apply update_other. intros ->. tauto.
      * destruct l' as [| t' l'']; [exact I |].
        now rewrite <- (key_thread_unblock tbl t t').
    + exists []. simpl. split; [reflexivity |]. split; [intros u [] |].
      split; [reflexivity |]. split; [reflexivity | exact Hlater].
Qed.

Lemma nodup_app_disjoint (a b : list tid) t :
  NoDup (a ++ b) -> In t a -> ~ In t b.
Proof.
  induction a as [| x a IH]; simpl; intros Hnd Ha Hb; [contradiction |].
  apply NoDup_cons_iff in Hnd. destruct Hnd as [Hx Hnd].
  destruct Ha as [-> | Ha].
  - apply Hx. apply in_or_app. now right.
  - exact (IH Hnd Ha Hb).
Qed.

(** X13: a second scan at the same clock value finds nothing to do: it
    leaves the list, the cache and every thread as the first scan left
    them and makes nobody ready. *)
Theorem scan_is_idempotent k :
  fst (check_sleeping_threads (fst (check_sleeping_threads k))) =
    fst (check_sleeping_threads k) /\
  forall t w now,
    ~ In (Readied t w now)
         (snd (check_sleeping_threads (fst (check_sleeping_threads k)))).
Proof.
  unfold check_sleeping_threads.
  destruct (wake_due_partition (ticks k) (threads k) (sleeping_list k))
    as (woken & _ & _ & Hk & _ & Hhd).
  destruct (wake_due (ticks k) (threads k) (sleeping_list k)) as [[tbl' l'] tr].
  simpl in *. destruct l' as [| h rest]; simpl.
  - split; [reflexivity |]. intros t w now [H | []]. discriminate.
  - rewrite <- (Hk h) in Hhd. unfold key in Hhd.
    destruct (Z.leb_spec (wakeup_tick (tbl' h)) (ticks k)) as [Hle | _]; [lia |].
    simpl. split; [reflexivity |].
    intros t w now [H | [H | []]]; discriminate.
Qed.

Lemma check_wakes_the_due k t :
  wf k -> In t (sleeping_list k) ->
  wakeup_tick (threads (fst (check_sleeping_threads k)) t) =
    wakeup_tick (threads k t) /\
  (wakeup_tick (threads k t) <= ticks k ->
   ~ In t (sleeping_list (fst (check_sleeping_threads k))) /\
   status (threads (fst (check_sleeping_threads k)) t) = THREAD_READY) /\
  (ticks k < wakeup_tick (threads k t) ->
   In t (sleeping_list (fst (check_sleeping_threads k))) /\
   status (threads (fst (check_sleeping_threads k)) t) = THREAD_BLOCKED).
Proof.
  intros Hwf Hin.
  pose proof (wf_sorted _ (wf_check_sleeping_threads k Hwf)) as Hsorted.
  revert Hsorted. unfold check_sleeping_threads, wake_ticks.
  destruct (wake_due_partition (ticks k) (threads k) (sleeping_list k))
    as (woken & Hl & Hw & Hk & Hs & Hhd).
  destruct (wake_due (ticks k) (threads k) (sleeping_list k)) as [[tbl' l'] tr].
  simpl in *. intros Hsorted.
  pose proof (wf_nodup k Hwf) as Hnd. rewrite Hl in Hnd, Hin.
  fold (key (threads k) t) (key tbl' t).
  assert (Hrest : In t l' -> ticks k < key (threads k) t).
  { intros Ht. destruct l' as [| h rest]; [contradiction |].
    simpl in Hsorted. apply StronglySorted_inv in Hsorted.
    destruct Hsorted as [_ Hall]. rewrite Forall_forall in Hall.
    destruct Ht as [<- | Ht]; [exact Hhd |].
    specialize (Hall (key tbl' t) (in_map (key tbl') rest t Ht)).
    rewrite !Hk in Hall. lia. }
  split; [apply Hk |]. split.
  - intros Hdue.
    assert (Hwoken : In t woken).
    { apply in_app_or in Hin. destruct Hin as [H | H]; [exact H |].
      apply Hrest in H. lia. }
    split; [eapply nodup_app_disjoint; eassumption | apply (Hw t Hwoken)].
  - intros Hlater.
    assert (Hout : ~ In t woken).
    { intros H. destruct (Hw t H) as [Hle _]. lia. }
    apply in_app_or in Hin. destruct Hin as [H | H]; [contradiction |].
    split; [exact H |]. rewrite (Hs t Hout).
    apply (wf_blocked k Hwf). rewrite Hl. apply in_or_app. now right.
Qed.

(** X14: a timer interrupt wakes exactly the sleepers that are due.  In
    every state a run reaches, a thread on the sleeping list whose
    [wakeup_tick] is at most the incremented clock is off the list and
    [THREAD_READY] after the interrupt, a thread whose [wakeup_tick] is
    later is still on the list and [THREAD_BLOCKED], and no [wakeup_tick]
    changes. *)
Theorem interrupt_wakes_the_due evs k tr :
  run evs = Some (k, tr) ->
  forall t, In t (sleeping_list k) ->
    wakeup_tick (threads (fst (timer_interrupt k)) t) =
      wakeup_tick (threads k t) /\
    (wakeup_tick (threads k t) <= ticks (fst (timer_interrupt k)) ->
     ~ In t (sleeping_list (fst (timer_interrupt k))) /\
     status (threads (fst (timer_interrupt k)) t) = THREAD_READY) /\
    (ticks (fst (timer_interrupt k)) < wakeup_tick (threads k t) ->
     In t (sleeping_list (fst (timer_interrupt k))) /\
     status (threads (fst (timer_interrupt k)) t) = THREAD_BLOCKED).
Proof.
  intros Hrun t Hin. pose proof (run_wf evs k tr Hrun) as Hwf.
  rewrite ticks_timer_interrupt.
  unfold timer_interrupt, thread_tick.
  set (k1 := mkKernel (wrap64 (ticks k + 1)) (next_wakeup_tick k)
                      (sleeping_list k) (threads k)).
  assert (Hwf1 : wf k1) by (destruct Hwf; constructor; assumption).
  destruct (Z.geb_spec (ticks k1) (next_wakeup_tick k1)) as [_ | Hlt].
  - apply (check_wakes_the_due k1 t Hwf1 Hin).
  - simpl in *. split; [reflexivity |].
    assert (Hmin : next_wakeup_tick k <= wakeup_tick (threads k t)).
    { rewrite (wf_cache k Hwf). apply min_tick_le.
      unfold wake_ticks. apply (in_map (key (threads k))) in Hin. exact Hin. }
    split; [intros Hdue; lia |].
    intros _. split; [exact Hin | apply (wf_blocked k Hwf t Hin)].
Qed.

Lemma interrupt_wakes_the_due_witness :
  run three_sleepers = Some (final three_sleepers, history three_sleepers) /\
  In 2%nat (sleeping_list (final three_sleepers)) /\
  wakeup_tick (threads (final three_sleepers) 2%nat)
    <= ticks (fst (timer_interrupt (final three_sleepers))) /\
  status (threads (fst (timer_interrupt (final three_sleepers))) 2%nat)
    = THREAD_READY.
Proof.
  assert (Hrun : run three_sleepers =
                 Some (final three_sleepers, history three_sleepers))
    by reflexivity.
  assert (Hin : In 2%nat (sleeping_list (final three_sleepers)))
    by (vm_compute; left; reflexivity).
  assert (Hdue : wakeup_tick (threads (final three_sleepers) 2%nat)
                 <= ticks (fst (timer_interrupt (final three_sleepers))))
    by (vm_compute; discriminate).
  split; [exact Hrun |]. split; [exact Hin |]. split; [exact Hdue |].
  destruct (interrupt_wakes_the_due _ _ _ Hrun 2%nat Hin) as (_ & Hready & _).
  exact (proj2 (Hready Hdue)).
Defined.

End TimerLaws.

(** ** Sleeps and wake-ups, thread by thread *)
Module TimerWakeups.
Import Machine MachineFacts Timer TimerSpec TimerLaws.

(** *** Replaying a thread's events *)

Lemma replay_app st l1 l2 :
  replay st (l1 ++ l2) =
  match replay st l1 with
  | Some st' => replay st' l2
  | None => None
  end.
Proof.
  revert st. induction l1 as [| a l1 IH]; intros st; simpl; [reflexivity |].
  destruct a as [u start n w | now | u | u w now]; try apply IH.
  - destruct st as [w' |]; [reflexivity | apply IH].
  - destruct st as [w' |]; [| reflexivity].
    destruct (w =? w'); [apply IH | reflexivity].
Qed.

Lemma events_of_app t tr1 tr2 :
  events_of t (tr1 ++ tr2) = events_of t tr1 ++ events_of t tr2.
Proof. apply filter_app. Qed.

(** Within one scan a thread is made ready once if the scan takes it off
    the list, and not at all otherwise. *)
Lemma events_wake_due now tbl l t :
  NoDup l ->
  events_of t (snd (wake_due now tbl l)) =
  if in_dec Nat.eq_dec t (snd (fst (wake_due now tbl l))) then []
  else if in_dec Nat.eq_dec t l then [Readied t (key tbl t) now]
  else [].
Proof.
  revert tbl. induction l as [| t0 rest IH]; intros tbl Hnd; simpl.
  - destruct (in_dec Nat.eq_dec t []) as [[] | _]; reflexivity.
  - apply NoDup_cons_iff in Hnd. destruct Hnd as [Hfresh Hnd].
    fold (key tbl t0).
    destruct (Z.leb_spec (key tbl t0) now) as [Hdue | Hlater].
    + specialize (IH (thread_unblock tbl t0) Hnd).
      destruct (wake_due_split now (thread_unblock tbl t0) rest)
        as (woken & Hl & _).
      destruct (wake_due now (thread_unblock tbl t0) rest) as [[tbl' l'] tr].
      simpl in *.
      assert (Hsub : forall u, In u l' -> In u rest).
      { intros u Hu. rewrite Hl. apply in_or_app. now right. }
      rewrite key_thread_unblock in IH.
      destruct (Nat.eqb_spec t0 t) as [E | Hne].
      * subst t0.
        change (filter (concerns t) tr) with (events_of t tr). rewrite IH.
        destruct (in_dec Nat.eq_dec t l') as [Hin | Hout'];
          [exfalso; auto |].
        destruct (in_dec Nat.eq_dec t rest) as [Hin | Hout];
          [contradiction |].
        destruct (Nat.eq_dec t t) as [E | Hn]; [reflexivity | congruence].
      * change (filter (concerns t) tr) with (events_of t tr). rewrite IH.
        destruct (in_dec Nat.eq_dec t l') as [Hin | Hout']; [reflexivity |].
        destruct (Nat.eq_dec t0 t) as [E | Hne']; [contradiction |].
        destruct (in_dec Nat.eq_dec t rest); reflexivity.
    + simpl.
      destruct (Nat.eq_dec t0 t) as [E | Hne]; [reflexivity |].
      destruct (in_dec Nat.eq_dec t rest); reflexivity.
Qed.

(** *** The pairing is kept by every step *)

Lemma paired_boot : paired boot [].
Proof. intros t. reflexivity. Qed.

Lemma paired_timer_sleep cur n k tr :
  wf k -> paired k tr -> runnable (status (threads k cur)) = true ->
  paired (fst (timer_sleep cur n k)) (tr ++ snd (timer_sleep cur n k)).
Proof.
  intros Hwf Hp Hrun.
  pose proof (wf_not_sleeping k cur Hwf Hrun) as Hfresh.
  unfold timer_sleep. destruct (n <=? 0); simpl.
  { now rewrite app_nil_r. }
  set (w := wrap64 (ticks k + n)).
  set (tbl1 := set_wakeup_tick (threads k) cur w).
  set (sl := list_insert_ordered (wakeup_time_less tbl1) cur (sleeping_list k)).
  assert (Hperm : Permutation sl (cur :: sleeping_list k)) by apply insert_perm.
  assert (Hkcur : key (thread_block tbl1 cur) cur = w).
  { rewrite key_thread_block. apply key_set_same. }
  intros t. rewrite events_of_app, replay_app, (Hp t). simpl.
  destruct (Nat.eqb_spec cur t) as [<- | Hne]; simpl.
  - destruct (in_dec Nat.eq_dec cur (sleeping_list k)) as [Hin | _];
      [contradiction |].
    destruct (in_dec Nat.eq_dec cur sl) as [_ | Hout].
    + now rewrite Hkcur.
    + exfalso. apply Hout.
      apply (Permutation_in _ (Permutation_sym Hperm)). now left.
  - assert (Hkey : key (thread_block tbl1 cur) t = key (threads k) t).
    { rewrite key_thread_block. apply key_set_other. congruence. }
    destruct (in_dec Nat.eq_dec t (sleeping_list k)) as [Hin | Hout];
      destruct (in_dec Nat.eq_dec t sl) as [Hin' | Hout'].
    + now rewrite Hkey.
    + exfalso. apply Hout'.
      apply (Permutation_in _ (Permutation_sym Hperm)). now right.
    + exfalso. apply (Permutation_in _ Hperm) in Hin'.
      destruct Hin' as [E | Hin']; [congruence | contradiction].
    + reflexivity.
Qed.

Lemma paired_check_sleeping_threads k tr :
  wf k -> paired k tr ->
  paired (fst (check_sleeping_threads k))
         (tr ++ snd (check_sleeping_threads k)).
Proof.
  intros Hwf Hp. unfold check_sleeping_threads.
  destruct (wake_due_split (ticks k) (threads k) (sleeping_list k))
    as (woken & Hl & _ & Hk & _ & _).
  pose proof (fun t => events_wake_due (ticks k) (threads k) (sleeping_list k)
                         t (wf_nodup k Hwf)) as Hev.
  destruct (wake_due (ticks k) (threads k) (sleeping_list k)) as [[tbl' l'] trw].
  simpl in *. intros t. cbn [fst snd sleeping_list threads].
  rewrite events_of_app, replay_app, (Hp t).
  change (events_of t (Scan (ticks k) :: trw)) with (events_of t trw).
  rewrite (Hev t).
  destruct (in_dec Nat.eq_dec t l') as [Hin' | Hout'].
  - destruct (in_dec Nat.eq_dec t (sleeping_list k)) as [_ | Hout].
    + simpl. now rewrite Hk.
    + exfalso. apply Hout. rewrite Hl. apply in_or_app. now right.
  - destruct (in_dec Nat.eq_dec t (sleeping_list k)) as [Hin | Hout].
    + simpl. now rewrite Z.eqb_refl.
    + reflexivity.
Qed.

Lemma paired_timer_interrupt k tr :
  wf k -> paired k tr ->
  paired (fst (timer_interrupt k)) (tr ++ snd (timer_interrupt k)).
Proof.
  intros Hwf Hp. unfold timer_interrupt, thread_tick.
  set (k1 := mkKernel (wrap64 (ticks k + 1)) (next_wakeup_tick k)
                      (sleeping_list k) (threads k)).
  assert (Hwf1 : wf k1) by (destruct Hwf; constructor; assumption).
  destruct (ticks k1 >=? next_wakeup_tick k1).
  - apply paired_check_sleeping_threads; [exact Hwf1 | exact Hp].
  - simpl. rewrite app_nil_r. exact Hp.
Qed.

Lemma run_paired evs k tr : run evs = Some (k, tr) -> wf k /\ paired k tr.
Proof.
  intros Hrun.
  apply (exec_preserves (fun _ _ => true) (fun k tr => wf k /\ paired k tr))
    with (evs := evs) (k := boot) (tr := []) (tr' := tr).
  - intros e k0 tr0 k1 tr1 [Hwf Hp] _ Hs.
    split; [eapply wf_step; eassumption |]. destruct e as [t n |].
    + apply step_sleep in Hs. destruct Hs as (Hrun' & -> & ->).
      now apply paired_timer_sleep.
    + apply step_tick in Hs. destruct Hs as (-> & ->).
      now apply paired_timer_interrupt.
  - split; [apply wf_boot | apply paired_boot].
  - apply guarded_true.
  - exact Hrun.
Qed.

(** *** After an interrupt no sleeper is due *)

Lemma interrupt_leaves_later k t :
  wf k -> In t (sleeping_list (fst (timer_interrupt k))) ->
  ticks (fst (timer_interrupt k))
    < wakeup_tick (threads (fst (timer_interrupt k)) t).
Proof.
  intros Hwf. unfold timer_interrupt, thread_tick.
  set (k1 := mkKernel (wrap64 (ticks k + 1)) (next_wakeup_tick k)
                      (sleeping_list k) (threads k)).
  assert (Hwf1 : wf k1) by (destruct Hwf; constructor; assumption).
  destruct (Z.geb_spec (ticks k1) (next_wakeup_tick k1)) as [_ | Hlt].
  - intros Hin'. rewrite ticks_check_sleeping_threads.
    destruct (in_dec Nat.eq_dec t (sleeping_list k1)) as [Hin | Hout].
    + destruct (check_wakes_the_due k1 t Hwf1 Hin) as (Hkey & Hdue & _).
      rewrite Hkey.
      destruct (Z.le_gt_cases (wakeup_tick (threads k1 t)) (ticks k1))
        as [Hle | Hgt]; [| lia].
      destruct (Hdue Hle) as [Hgone _]. contradiction.
    + destruct (check_untouched k1 t Hout) as [Hgone _]. contradiction.
  - simpl in *. intros Hin.
    assert (Hmin : next_wakeup_tick k <= wakeup_tick (threads k t)).
    { rewrite (wf_cache k Hwf). apply min_tick_le.
      unfold wake_ticks. apply (in_map (key (threads k))) in Hin. exact Hin. }
    lia.
Qed.

Lemma exec_snoc evs e c :
  exec (evs ++ [e]) c =
  match exec evs c with
  | Some c' =>
      match step e (fst c') with
      | Some (k1, tr1) => Some (k1, snd c' ++ tr1)
      | None => None
      end
  | None => None
  end.
Proof.
  revert c. induction evs as [| e0 evs IH]; intros c; simpl.
  - destruct (step e (fst c)) as [[k1 tr1] |]; reflexivity.
  - destruct (step e0 (fst c)) as [[k1 tr1] |]; [apply IH | reflexivity].
Qed.

Lemma later_after_tick evs k tr :
  run evs = Some (k, tr) -> last evs Tick = Tick ->
  forall t, In t (sleeping_list k) -> ticks k < wakeup_tick (threads k t).
Proof.
  intros Hrun Hlast t.
  destruct evs as [| e0 evs0].
  - unfold run in Hrun. simpl in Hrun. injection Hrun as <- _. intros [].
  - destruct (exists_last (l := e0 :: evs0)) as (evs' & e & Heq);
      [discriminate |].
    rewrite Heq in Hrun, Hlast. rewrite last_last in Hlast. subst e.
    unfold run in Hrun. rewrite exec_snoc in Hrun.
    destruct (exec evs' (boot, [])) as [[k0 tr0] |] eqn:Hex; [| discriminate].
    simpl in Hrun.
    pose proof (interrupt_leaves_later k0 t (run_wf evs' k0 tr0 Hex)) as Hl.
    destruct (timer_interrupt k0) as [k1 tr1]. injection Hrun as <- _.
    exact Hl.
Qed.

(** C1: every due sleeper is made ready exactly once.  Take any run of
    sleep requests and timer interrupts and look at it after a timer
    interrupt (the scan is what wakes a thread, so this is the "eventually"
    of the design), or at any point when its tick arithmetic stays inside
    [int64_t].  Then the sleeps and wake-ups of every thread pair up one to
    one, in order and with the same wake-up time: never a second wake-up
    for a sleep, never a wake-up without one.  The only sleep that has no
    wake-up yet is that of a thread still on the sleeping list, and its
    [wakeup_tick] is later than the clock.  So every sleep whose
    [wakeup_tick] the clock has reached has been ended by the scan exactly
    once. *)
Theorem no_lost_wakeup evs k tr :
  run evs = Some (k, tr) ->
  last evs Tick = Tick \/ no_overflow evs = true ->
  forall t,
    (In t (sleeping_list k) ->
     ticks k < wakeup_tick (threads k t) /\
     replay None (events_of t tr) = Some (Some (wakeup_tick (threads k t)))) /\
    (~ In t (sleeping_list k) ->
     replay None (events_of t tr) = Some None) /\
    (wakeup_tick (threads k t) <= ticks k ->
     ~ In t (sleeping_list k) /\ replay None (events_of t tr) = Some None).
Proof.
  intros Hrun Hwhen t.
  destruct (run_paired evs k tr Hrun) as [Hwf Hp].
  assert (Hlater : In t (sleeping_list k) ->
                   ticks k < wakeup_tick (threads k t)).
  { destruct Hwhen as [Hlast | Hno].
    - apply (later_after_tick evs k tr Hrun Hlast).
    - destruct (run_accounted evs k tr Hrun Hno) as [_ Hacc].
      apply (acc_later k tr Hacc). }
  specialize (Hp t). unfold key in Hp.
  destruct (in_dec Nat.eq_dec t (sleeping_list k)) as [Hin | Hout].
  - split; [intros _; split; [now apply Hlater | exact Hp] |].
    split; [intros H; contradiction |].
    intros Hdue. specialize (Hlater Hin). lia.
  - split; [intros H; contradiction |].
    split; [intros _; exact Hp |].
    intros _. split; [exact Hout | exact Hp].
Qed.

Lemma no_lost_wakeup_witness :
  run (three_sleepers ++ five_ticks) =
    Some (final (three_sleepers ++ five_ticks),
          history (three_sleepers ++ five_ticks)) /\
  last (three_sleepers ++ five_ticks) Tick = Tick /\
  wakeup_tick (threads (final (three_sleepers ++ five_ticks)) 3%nat)
    <= ticks (final (three_sleepers ++ five_ticks)) /\
  events_of 3%nat (history (three_sleepers ++ five_ticks))
    = [Blocked 3%nat 0 5 5; Readied 3%nat 5 5] /\
  replay None (events_of 3%nat (history (three_sleepers ++ five_ticks)))
    = Some None.
Proof.
  assert (Hrun : run (three_sleepers ++ five_ticks) =
                 Some (final (three_sleepers ++ five_ticks),
                       history (three_sleepers ++ five_ticks))) by reflexivity.
  assert (Hlast : last (three_sleepers ++ five_ticks) Tick = Tick)
    by reflexivity.
  assert (Hdue : wakeup_tick (threads (final (three_sleepers ++ five_ticks)) 3%nat)
                 <= ticks (final (three_sleepers ++ five_ticks)))
    by (vm_compute; discriminate).
  split; [exact Hrun |]. split; [exact Hlast |]. split; [exact Hdue |].
  split; [vm_compute; reflexivity |].
  destruct (no_lost_wakeup _ _ _ Hrun (or_introl Hlast) 3%nat) as (_ & _ & H).
  exact (proj2 (H Hdue)).
Defined.

(** *** No wake-up before its time *)




(** *** The list and the threads *)

(** X15: list membership agrees with what the alarm clock did.  After
    every run a thread on the sleeping list is [THREAD_BLOCKED], and a
    thread is on the list exactly when its latest alarm-clock action is a
    [timer_sleep] that the scan has not yet answered. *)
Theorem listed_iff_asleep evs k tr :
  run evs = Some (k, tr) ->
  forall t,
    (In t (sleeping_list k) -> status (threads k t) = THREAD_BLOCKED) /\
    (In t (sleeping_list k) <->
     exists w, replay None (events_of t tr) = Some (Some w)).
Proof.
  intros Hrun t. destruct (run_paired evs k tr Hrun) as [Hwf Hp].
  split; [apply (wf_blocked k Hwf) |].
  specialize (Hp t).
  destruct (in_dec Nat.eq_dec t (sleeping_list k)) as [Hin | Hout].
  - split; [intros _; eexists; exact Hp | intros _; exact Hin].
  - split; [intros H; contradiction |].
    intros [w Hw]. rewrite Hp in Hw. discriminate.
Qed.

Lemma listed_iff_asleep_witness :
  run three_sleepers_ticked =
    Some (final three_sleepers_ticked, history three_sleepers_ticked) /\
  In 3%nat (sleeping_list (final three_sleepers_ticked)) /\
  status (threads (final three_sleepers_ticked) 3%nat) = THREAD_BLOCKED /\
  replay None (events_of 2%nat (history three_sleepers_ticked)) = Some None /\
  ~ In 2%nat (sleeping_list (final three_sleepers_ticked)).
Proof.
  assert (Hrun : run three_sleepers_ticked =
                 Some (final three_sleepers_ticked,
                       history three_sleepers_ticked)) by reflexivity.
  assert (Hin : In 3%nat (sleeping_list (final three_sleepers_ticked)))
    by (vm_compute; right; left; reflexivity).
  assert (Hrep : replay None (events_of 2%nat (history three_sleepers_ticked))
                 = Some None) by (vm_compute; reflexivity).
  split; [exact Hrun |]. split; [exact Hin |].
  split; [exact (proj1 (listed_iff_asleep _ _ _ Hrun 3%nat) Hin) |].
  split; [exact Hrep |].
  intros H2. apply (proj2 (listed_iff_asleep _ _ _ Hrun 2%nat)) in H2.
  destruct H2 as [w Hw]. rewrite Hrep in Hw. discriminate Hw.
Defined.

End TimerWakeups.
